(** * StreamFX: dynamic binding of the NVIDIA CUDA driver API

    A shallow embedding of [source/nvidia/cuda/nvidia-cuda.cpp]: the six
    symbol-loading macros, the constructor and destructor of
    [streamfx::nvidia::cuda::cuda], [cuda::version()] and the shared-instance
    accessor [cuda::get()].

    The dynamic-library loader, the logging facility and the driver itself are
    external: they appear as an environment [env] the code runs against, and
    every interaction with them is recorded as an [event], in program order. *)

From stdpp Require Import gmap strings list fin_maps.
From Stdlib Require Import ZArith Lia.

Local Open Scope Z_scope.

(** ** Build configuration

    The preprocessor symbols the translation unit tests, and the macros it
    expands that are defined in headers outside this file. *)

Inductive fn_id := FnCtor | FnDtor.

Record build := {
  def_DEBUG : bool;            (* #ifdef _DEBUG *)
  def_WIN32_or_WIN64 : bool;   (* defined(_WIN32) || defined(_WIN64) *)
  def_WIN32 : bool;            (* #ifdef WIN32 *)
  FUNCTION_SIG : fn_id → string; (* __FUNCTION_SIG__, per enclosing function *)
  PRIuPTR : string;            (* <cinttypes> *)
  PRId32 : string              (* <cinttypes> *)
}.

(** ** Events *)

Inductive level := LOG_ERROR | LOG_WARNING | LOG_INFO | LOG_DEBUG.

Inductive arg :=
| AInt (z : Z)
| AStr (s : string)
| AThis (p : nat).

Inductive event :=
| EvLog (lvl : level) (fmt : string) (args : list arg)  (* P_LOG_xxx(fmt, args...) *)
| EvLibraryLoad (file : string)        (* streamfx::util::library::load *)
| EvLibraryRelease (file : string)     (* the _library member is dropped *)
| EvLoadSymbol (sym : string)          (* _library->load_symbol(sym) *)
| EvCall (entry : string) (a : Z).     (* call through a bound entry point *)

Global Instance level_eq_dec : EqDecision level.
Proof. solve_decision. Defined.
Global Instance arg_eq_dec : EqDecision arg.
Proof. solve_decision. Defined.
Global Instance event_eq_dec : EqDecision event.
Proof. solve_decision. Defined.

(** [D_LOG_ERROR], [D_LOG_WARNING], [D_LOG_INFO], [D_LOG_DEBUG]: with
    [_DEBUG] the prefix is ["<%s> "] and the function signature is passed as
    the first variadic argument; without it the prefix is the literal
    ["<nvidia::cuda::cuda> "]. *)
Definition ST_PREFIX (b : build) : string :=
  if def_DEBUG b then "<%s> " else "<nvidia::cuda::cuda> ".

Definition D_LOG (b : build) (f : fn_id) (lvl : level) (x : string)
    (args : list arg) : event :=
  if def_DEBUG b
  then EvLog lvl (ST_PREFIX b +:+ x) (AStr (FUNCTION_SIG b f) :: args)
  else EvLog lvl (ST_PREFIX b +:+ x) args.

Definition ST_CUDA_NAME (b : build) : string :=
  if def_WIN32_or_WIN64 b then "nvcuda.dll" else "libcuda.so.1".

(** ** The environment: library loader and driver *)

Inductive load_reply :=
| Opened
| LoadFails (what : string).

(** Modelled from the spec: [streamfx::util::library::load] is declared in
    util/util-library.hpp, which is not part of this translation unit. Opening
    the native library either succeeds or fails, and a failure is propagated
    to the caller as a construction failure (an exception carrying [what]).
    [load_symbol] returns the address of the symbol, null (0) on failure. *)
Record env := {
  library_load : string → load_reply;
  load_symbol : string → Z;
  (* int32_t* out-parameter: its value before the call ↦ (CUresult, value after) *)
  drv_cuDriverGetVersion : Z → Z * Z;
  (* flags ↦ CUresult *)
  drv_cuInit : Z → Z
}.

(** Modelled from the spec: [result::SUCCESS] is an enumerator of
    nvidia-cuda.hpp, which is not part of this translation unit; it mirrors
    the driver's CUDA_SUCCESS, which is 0. *)
Definition SUCCESS : Z := 0.

(** ** The object under construction *)

(** The members of [class cuda]: the library handle and one function pointer
    per logical name. A name that was never assigned is absent from [fn]. *)
Record cuda := {
  _library : option string;
  fn : gmap string Z
}.

Definition cuda_fresh : cuda := {| _library := None; fn := ∅ |}.

(** ** A monad for member functions: state, exceptions, events *)

Inductive outcome (A : Type) :=
| Ret (a : A)
| Throw (what : string)   (* std::runtime_error(what) *)
| Undefined.              (* dereference of a null pointer *)
Arguments Ret {A} a.
Arguments Throw {A} what.
Arguments Undefined {A}.

Record run (A : Type) := Run {
  res : outcome A;
  obj : cuda;
  evs : list event
}.
Arguments Run {A} res obj evs.
Arguments res {A} r.
Arguments obj {A} r.
Arguments evs {A} r.

Definition M (A : Type) : Type := cuda → run A.

Global Instance M_ret : MRet M := λ A a c, Run (Ret a) c [].

Global Instance M_bind : MBind M := λ A B f m c,
  let r := m c in
  match res r with
  | Ret a => let r' := f a (obj r) in Run (res r') (obj r') (evs r ++ evs r')
  | Throw w => Run (Throw w) (obj r) (evs r)
  | Undefined => Run Undefined (obj r) (evs r)
  end.

Definition throw {A} (what : string) : M A := λ c, Run (Throw what) c [].
Definition emit (ev : event) : M unit := λ c, Run (Ret tt) c [ev].
Definition assign (NAME : string) (p : Z) : M unit :=
  λ c, Run (Ret tt) {| _library := _library c; fn := <[NAME := p]> (fn c) |} [].

(** [_library = streamfx::util::library::load(name)] *)
Definition lib_load (e : env) (name : string) : M unit := λ c,
  match library_load e name with
  | Opened => Run (Ret tt) {| _library := Some name; fn := fn c |} [EvLibraryLoad name]
  | LoadFails w => Run (Throw w) c [EvLibraryLoad name]
  end.

(** [_library->load_symbol(sym)] *)
Definition lib_load_symbol (e : env) (sym : string) : M Z := λ c,
  match _library c with
  | Some _ => Run (Ret (load_symbol e sym)) c [EvLoadSymbol sym]
  | None => Run Undefined c []
  end.

(** A call through the member function pointer [NAME]. *)
Definition call {A} (NAME : string) (a : Z) (driver : Z → A) : M A := λ c,
  match fn c !! NAME with
  | Some p => if decide (p = 0) then Run Undefined c []
              else Run (Ret (driver a)) c [EvCall NAME a]
  | None => Run Undefined c []
  end.

(** ** The symbol-loading macros *)

Definition fail_msg (b : build) (NAME : string) : string :=
  "Failed to load '" +:+ NAME +:+ "' from '" +:+ ST_CUDA_NAME b +:+ "'.".

Definition opt_msg (NAME : string) : string :=
  "Loading of optional symbol '" +:+ NAME +:+ "' failed.".

Definition P_CUDA_LOAD_SYMBOL (e : env) (b : build) (NAME : string) : M unit :=
  p ← lib_load_symbol e NAME;
  assign NAME p;;
  if decide (p = 0) then throw (fail_msg b NAME) else mret tt.

Definition P_CUDA_LOAD_SYMBOL_OPT (e : env) (b : build) (NAME : string) : M unit :=
  p ← lib_load_symbol e NAME;
  assign NAME p;;
  if decide (p = 0)
  then emit (D_LOG b FnCtor LOG_WARNING (opt_msg NAME) [AInt 0])
  else mret tt.

Definition P_CUDA_LOAD_SYMBOL_EX (e : env) (b : build) (NAME OVERRIDE : string)
    : M unit :=
  p ← lib_load_symbol e OVERRIDE;
  assign NAME p;;
  if decide (p = 0) then throw (fail_msg b NAME) else mret tt.

Definition P_CUDA_LOAD_SYMBOL_OPT_EX (e : env) (b : build)
    (NAME OVERRIDE : string) : M unit :=
  p ← lib_load_symbol e OVERRIDE;
  assign NAME p;;
  if decide (p = 0)
  then emit (D_LOG b FnCtor LOG_WARNING (opt_msg NAME) [AInt 0])
  else mret tt.

Definition P_CUDA_LOAD_SYMBOL_V2 (e : env) (b : build) (NAME : string) : M unit :=
  p ← lib_load_symbol e (NAME +:+ "_v2");
  assign NAME p;;
  if decide (p = 0) then throw (fail_msg b NAME) else mret tt.

Definition P_CUDA_LOAD_SYMBOL_OPT_V2 (e : env) (b : build) (NAME : string)
    : M unit :=
  p ← lib_load_symbol e (NAME +:+ "_v2");
  assign NAME p;;
  if decide (p = 0)
  then emit (D_LOG b FnCtor LOG_WARNING (opt_msg NAME) [AInt 0])
  else mret tt.

(** ** The constructor's resolution table

    The constructor is a straight-line sequence of macro invocations; each
    invocation is one [stmt], and a block is the list of its statements in
    source order. *)

Inductive stmt :=
| LOAD (NAME : string)                  (* P_CUDA_LOAD_SYMBOL(NAME) *)
| LOAD_OPT (NAME : string)              (* P_CUDA_LOAD_SYMBOL_OPT(NAME) *)
| LOAD_EX (NAME OVERRIDE : string)      (* P_CUDA_LOAD_SYMBOL_EX(NAME, OVERRIDE) *)
| LOAD_OPT_EX (NAME OVERRIDE : string)  (* P_CUDA_LOAD_SYMBOL_OPT_EX(NAME, OVERRIDE) *)
| LOAD_V2 (NAME : string)               (* P_CUDA_LOAD_SYMBOL_V2(NAME) *)
| LOAD_OPT_V2 (NAME : string).          (* P_CUDA_LOAD_SYMBOL_OPT_V2(NAME) *)

Global Instance stmt_eq_dec : EqDecision stmt.
Proof. solve_decision. Defined.

Definition exec (e : env) (b : build) (s : stmt) : M unit :=
  match s with
  | LOAD n => P_CUDA_LOAD_SYMBOL e b n
  | LOAD_OPT n => P_CUDA_LOAD_SYMBOL_OPT e b n
  | LOAD_EX n o => P_CUDA_LOAD_SYMBOL_EX e b n o
  | LOAD_OPT_EX n o => P_CUDA_LOAD_SYMBOL_OPT_EX e b n o
  | LOAD_V2 n => P_CUDA_LOAD_SYMBOL_V2 e b n
  | LOAD_OPT_V2 n => P_CUDA_LOAD_SYMBOL_OPT_V2 e b n
  end.

Fixpoint exec_all (e : env) (b : build) (l : list stmt) : M unit :=
  match l with
  | [] => mret tt
  | s :: l' => exec e b s;; exec_all e b l'
  end.

(** The logical name a statement binds (the member it assigns). *)
Definition logical (s : stmt) : string :=
  match s with
  | LOAD n | LOAD_OPT n | LOAD_EX n _ | LOAD_OPT_EX n _
  | LOAD_V2 n | LOAD_OPT_V2 n => n
  end.

(** The string a statement passes to [load_symbol]. *)
Definition lookup_name (s : stmt) : string :=
  match s with
  | LOAD n | LOAD_OPT n => n
  | LOAD_EX _ o | LOAD_OPT_EX _ o => o
  | LOAD_V2 n | LOAD_OPT_V2 n => n +:+ "_v2"
  end.

Definition required (s : stmt) : bool :=
  match s with
  | LOAD _ | LOAD_EX _ _ | LOAD_V2 _ => true
  | LOAD_OPT _ | LOAD_OPT_EX _ _ | LOAD_OPT_V2 _ => false
  end.

Definition versioned (s : stmt) : bool :=
  match s with
  | LOAD_V2 _ | LOAD_OPT_V2 _ => true
  | _ => false
  end.

(** Block 1: critical initialization functions. *)
Definition block1 : list stmt :=
  [ LOAD "cuInit";
    LOAD "cuDriverGetVersion" ].

(** Block 3: the remaining functions. *)
Definition block3_common : list stmt :=
  [ (* Device Management *)
    LOAD "cuDeviceGetName";
    LOAD "cuDeviceGetLuid";
    LOAD "cuDeviceGetUuid";
    (* Primary Context Management *)
    LOAD "cuDevicePrimaryCtxRetain";
    LOAD_V2 "cuDevicePrimaryCtxRelease";
    LOAD_OPT_V2 "cuDevicePrimaryCtxSetFlags";
    (* Context Management *)
    LOAD_V2 "cuCtxCreate";
    LOAD_V2 "cuCtxDestroy";
    LOAD_V2 "cuCtxPushCurrent";
    LOAD_V2 "cuCtxPopCurrent";
    LOAD_OPT "cuCtxGetCurrent";
    LOAD_OPT "cuCtxSetCurrent";
    LOAD "cuCtxGetStreamPriorityRange";
    LOAD "cuCtxSynchronize";
    (* Memory Management *)
    LOAD_V2 "cuMemAlloc";
    LOAD_V2 "cuMemAllocPitch";
    LOAD_V2 "cuMemFree";
    LOAD "cuMemcpy";
    LOAD_V2 "cuMemcpy2D";
    LOAD_V2 "cuMemcpy2DAsync";
    LOAD_OPT_V2 "cuArrayGetDescriptor";
    LOAD_OPT_V2 "cuMemcpyAtoA";
    LOAD_OPT_V2 "cuMemcpyAtoD";
    LOAD_OPT_V2 "cuMemcpyAtoH";
    LOAD_OPT_V2 "cuMemcpyAtoHAsync";
    LOAD_OPT_V2 "cuMemcpyDtoA";
    LOAD_OPT_V2 "cuMemcpyDtoD";
    LOAD_OPT_V2 "cuMemcpyDtoH";
    LOAD_OPT_V2 "cuMemcpyDtoHAsync";
    LOAD_OPT_V2 "cuMemcpyHtoA";
    LOAD_OPT_V2 "cuMemcpyHtoAAsync";
    LOAD_OPT_V2 "cuMemcpyHtoD";
    LOAD_OPT_V2 "cuMemcpyHtoDAsync";
    LOAD_OPT_V2 "cuMemHostGetDevicePointer";
    LOAD_V2 "cuMemsetD8";
    LOAD "cuMemsetD8Async";
    LOAD_OPT_V2 "cuMemsetD16";
    LOAD_OPT "cuMemsetD16Async";
    LOAD_OPT_V2 "cuMemsetD32";
    LOAD_OPT "cuMemsetD32Async";
    (* Stream Management *)
    LOAD "cuStreamCreate";
    LOAD_V2 "cuStreamDestroy";
    LOAD "cuStreamSynchronize";
    LOAD_OPT "cuStreamCreateWithPriority";
    LOAD_OPT "cuStreamGetPriority";
    (* Graphics Interoperability *)
    LOAD "cuGraphicsMapResources";
    LOAD "cuGraphicsSubResourceGetMappedArray";
    LOAD "cuGraphicsUnmapResources";
    LOAD "cuGraphicsUnregisterResource" ].

(** The part of block 3 under [#ifdef WIN32]. *)
Definition block3_win32 : list stmt :=
  [ (* Direct3D10 Interoperability *)
    LOAD "cuD3D10GetDevice";
    LOAD_OPT "cuGraphicsD3D10RegisterResource";
    (* Direct3D11 Interoperability *)
    LOAD "cuD3D11GetDevice";
    LOAD_OPT "cuGraphicsD3D11RegisterResource" ].

Definition block3 (b : build) : list stmt :=
  block3_common ++ (if def_WIN32 b then block3_win32 else []).

Definition table (b : build) : list stmt := block1 ++ block3 b.

(** ** Constructor, destructor, [version] *)

(** Block 2: get the CUDA driver version and log it. The quotient and the
    remainder are those of C++ on [int32_t]: truncated towards zero, the
    remainder taking the sign of the dividend. With divisors 1000 and 10 no
    intermediate value leaves the [int32_t] range. *)
Definition version_major (cuda_version : Z) : Z := cuda_version ÷ 1000.
Definition version_minor (cuda_version : Z) : Z := (Z.rem cuda_version 1000) ÷ 10.
Definition version_patch (cuda_version : Z) : Z := Z.rem cuda_version 10.

Definition version_fmt (b : build) : string :=
  "Driver reported CUDA version: %" +:+ PRId32 b +:+ ".%" +:+ PRId32 b
    +:+ ".%" +:+ PRId32 b.

Definition block2 (e : env) (b : build) : M unit :=
  '(r, cuda_version) ← call "cuDriverGetVersion" 0 (drv_cuDriverGetVersion e);
  if decide (r = SUCCESS) then
    let major := version_major cuda_version in
    let minor := version_minor cuda_version in
    let patch := version_patch cuda_version in
    emit (D_LOG b FnCtor LOG_INFO (version_fmt b) [AInt major; AInt minor; AInt patch])
  else
    emit (D_LOG b FnCtor LOG_WARNING
            "Failed to query NVIDIA CUDA Driver for version." [AInt 0]).

Definition cuda_ctor (e : env) (b : build) (this : nat) : M unit :=
  emit (D_LOG b FnCtor LOG_DEBUG
          ("Initializing... (Addr: 0x%" +:+ PRIuPTR b +:+ ")") [AThis this]);;
  lib_load e (ST_CUDA_NAME b);;
  exec_all e b block1;;
  block2 e b;;
  exec_all e b (block3 b);;
  call "cuInit" 0 (drv_cuInit e);;
  mret tt.

(** [~cuda()], followed by the destruction of the members. *)
Definition cuda_dtor (b : build) (this : nat) (c : cuda) : list event :=
  D_LOG b FnDtor LOG_DEBUG
    ("Finalizing... (Addr: 0x%" +:+ PRIuPTR b +:+ ")") [AThis this]
  :: match _library c with
     | Some f => [EvLibraryRelease f]
     | None => []
     end.

(** [int32_t cuda::version()] *)
Definition version (e : env) : M Z :=
  '(_, v) ← call "cuDriverGetVersion" 0 (drv_cuDriverGetVersion e);
  mret v.

(** [new cuda()]: run the constructor on a fresh object. When it throws, the
    members constructed so far are destroyed (the destructor body is not
    run). *)
Definition construct (e : env) (b : build) (this : nat) : run unit :=
  let r := cuda_ctor e b this cuda_fresh in
  match res r with
  | Ret _ => r
  | _ => Run (res r) (obj r)
           (evs r ++ match _library (obj r) with
                     | Some f => [EvLibraryRelease f]
                     | None => []
                     end)
  end.

(** ** The shared instance: [cuda::get()]

    Objects are identified by allocation: [next_this] numbers the objects
    [std::make_shared] creates. A control block is its strong reference count
    ([use_count]); the object lives on the [heap] while the count is positive.
    [instance] is the function-local [static std::weak_ptr]: [None] while it
    was never assigned, [Some i] when it observes the control block of [i].
    Each call of [get] runs under the function-local mutex, so calls are
    executed one after the other. *)

Local Open Scope nat_scope.

Record process := {
  instance : option nat;
  use_count : gmap nat nat;
  heap : gmap nat cuda;
  next_this : nat
}.

Definition process_start : process :=
  {| instance := None; use_count := ∅; heap := ∅; next_this := 0 |}.

Definition strong_count (p : process) (i : nat) : nat :=
  default 0 (use_count p !! i).

(** [instance.expired()] *)
Definition expired (p : process) : bool :=
  match instance p with
  | Some i => bool_decide (strong_count p i = 0)
  | None => true
  end.

(** One more strong reference to [i] (copy of a [shared_ptr], or a
    successful [weak_ptr::lock]). *)
Definition acquire (i : nat) (p : process) : process :=
  {| instance := instance p;
     use_count := <[i := S (strong_count p i)]> (use_count p);
     heap := heap p;
     next_this := next_this p |}.

(** [instance.lock()]: an empty pointer when expired. *)
Definition lock (p : process) : option nat * process :=
  match instance p with
  | Some i => if bool_decide (strong_count p i = 0) then (None, p)
              else (Some i, acquire i p)
  | None => (None, p)
  end.

Definition get (e : env) (b : build) (p : process)
    : outcome (option nat) * process * list event :=
  if expired p then
    let this := next_this p in
    let r := construct e b this in
    match res r with
    | Ret _ =>
        (Ret (Some this),
         {| instance := Some this;
            use_count := <[this := 1]> (use_count p);
            heap := <[this := obj r]> (heap p);
            next_this := S this |},
         evs r)
    | Throw w => (Throw w, p, evs r)
    | Undefined => (Undefined, p, evs r)
    end
  else
    let '(hard, p') := lock p in (Ret hard, p', []).

(** A consumer copies a strong reference it holds. *)
Definition copy (i : nat) (p : process) : process :=
  if bool_decide (strong_count p i = 0) then p else acquire i p.

(** A consumer drops a strong reference it holds; the last one destroys the
    object. *)
Definition release (b : build) (i : nat) (p : process) : process * list event :=
  match strong_count p i with
  | 0 => (p, [])
  | 1 =>
      ({| instance := instance p;
          use_count := <[i := 0]> (use_count p);
          heap := delete i (heap p);
          next_this := next_this p |},
       match heap p !! i with
       | Some c => cuda_dtor b i c
       | None => []
       end)
  | S n =>
      ({| instance := instance p;
          use_count := <[i := n]> (use_count p);
          heap := heap p;
          next_this := next_this p |}, [])
  end.

Inductive op :=
| OpGet (e : env)
| OpCopy (i : nat)
| OpRelease (i : nat).

Definition step (b : build) (o : op) (p : process) : process * list event :=
  match o with
  | OpGet e => let '(_, p', tr) := get e b p in (p', tr)
  | OpCopy i => (copy i p, [])
  | OpRelease i => release b i p
  end.

Fixpoint steps (b : build) (ops : list op) (p : process) : process * list event :=
  match ops with
  | [] => (p, [])
  | o :: ops' =>
      let '(p1, t1) := step b o p in
      let '(p2, t2) := steps b ops' p1 in
      (p2, t1 ++ t2)
  end.

Definition live (p : process) (i : nat) : Prop := is_Some (heap p !! i).

Local Close Scope nat_scope.

(** ** Sample configurations and environments *)

Definition windows_build : build :=
  {| def_DEBUG := false; def_WIN32_or_WIN64 := true; def_WIN32 := true;
     FUNCTION_SIG := λ _, EmptyString; PRIuPTR := "llu"; PRId32 := "d" |}.

Definition linux_build : build :=
  {| def_DEBUG := false; def_WIN32_or_WIN64 := false; def_WIN32 := false;
     FUNCTION_SIG := λ _, EmptyString; PRIuPTR := "lu"; PRId32 := "d" |}.

Definition linux_debug_build : build :=
  {| def_DEBUG := true; def_WIN32_or_WIN64 := false; def_WIN32 := false;
     FUNCTION_SIG := λ f, match f with
                          | FnCtor => "streamfx::nvidia::cuda::cuda::cuda()"
                          | FnDtor => "streamfx::nvidia::cuda::cuda::~cuda()"
                          end;
     PRIuPTR := "lu"; PRId32 := "d" |}.

(** A driver exporting every symbol, reporting CUDA 11.2. *)
Definition full_driver : env :=
  {| library_load := λ _, Opened;
     load_symbol := λ _, 4096;
     drv_cuDriverGetVersion := λ _, (SUCCESS, 11020);
     drv_cuInit := λ _, SUCCESS |}.

(** The same driver without the symbols in [absent]. *)
Definition without (absent : list string) (e : env) : env :=
  {| library_load := library_load e;
     load_symbol := λ s, if bool_decide (s ∈ absent) then 0 else load_symbol e s;
     drv_cuDriverGetVersion := drv_cuDriverGetVersion e;
     drv_cuInit := drv_cuInit e |}.

(** No driver installed. *)
Definition no_driver : env :=
  {| library_load := λ _, LoadFails "Failed to load library.";
     load_symbol := λ _, 0;
     drv_cuDriverGetVersion := λ v, (100, v);
     drv_cuInit := λ _, 100 |}.

(** ** Observations on runs *)

(** The loader returns null for the symbol a statement looks up. *)
Definition missing (e : env) (s : stmt) : bool :=
  bool_decide (load_symbol e (lookup_name s) = 0).

(** Every required statement of [l] finds its symbol. *)
Definition required_present (e : env) (l : list stmt) : bool :=
  forallb (λ s, implb (required s) (negb (missing e s))) l.

(** The events one statement emits when the library is open. *)
Definition stmt_events (e : env) (b : build) (s : stmt) : list event :=
  EvLoadSymbol (lookup_name s)
  :: (if missing e s && negb (required s)
      then [D_LOG b FnCtor LOG_WARNING (opt_msg (logical s)) [AInt 0]]
      else []).

Definition block_events (e : env) (b : build) (l : list stmt) : list event :=
  concat (map (stmt_events e b) l).

(** The member assignment one statement performs. *)
Definition bind_stmt (e : env) (m : gmap string Z) (s : stmt) : gmap string Z :=
  <[logical s := load_symbol e (lookup_name s)]> m.

(** The strings passed to [load_symbol] along a trace, in order. *)
Fixpoint symbols_requested (tr : list event) : list string :=
  match tr with
  | [] => []
  | EvLoadSymbol s :: tr' => s :: symbols_requested tr'
  | _ :: tr' => symbols_requested tr'
  end.

(** The arguments of the calls through entry point [NAME] along a trace. *)
Fixpoint calls_to (NAME : string) (tr : list event) : list Z :=
  match tr with
  | [] => []
  | EvCall n a :: tr' =>
      if bool_decide (n = NAME) then a :: calls_to NAME tr' else calls_to NAME tr'
  | _ :: tr' => calls_to NAME tr'
  end.

(** Substring test on strings. *)
Fixpoint contains (needle hay : string) : bool :=
  String.prefix needle hay
  || match hay with
     | EmptyString => false
     | String _ hay' => contains needle hay'
     end.

(** The log line of block 2. *)
Definition version_log (e : env) (b : build) : event :=
  let '(r, v) := drv_cuDriverGetVersion e 0 in
  if decide (r = SUCCESS) then
    D_LOG b FnCtor LOG_INFO (version_fmt b)
      [AInt (version_major v); AInt (version_minor v); AInt (version_patch v)]
  else
    D_LOG b FnCtor LOG_WARNING
      "Failed to query NVIDIA CUDA Driver for version." [AInt 0].

Definition init_log (b : build) (this : nat) : event :=
  D_LOG b FnCtor LOG_DEBUG
    ("Initializing... (Addr: 0x%" +:+ PRIuPTR b +:+ ")") [AThis this].

(** The driver honours the usual out-parameter contract: a failing version
    query leaves the caller's variable as it found it. *)
Definition keeps_out_on_failure (e : env) : Prop :=
  ∀ v0, (drv_cuDriverGetVersion e v0).1 ≠ SUCCESS →
        (drv_cuDriverGetVersion e v0).2 = v0.


(** The events of a construction that completes. *)
Definition ctor_events (e : env) (b : build) (this : nat) : list event :=
  [init_log b this; EvLibraryLoad (ST_CUDA_NAME b)]
  ++ block_events e b block1
  ++ [EvCall "cuDriverGetVersion" 0; version_log e b]
  ++ block_events e b (block3 b)
  ++ [EvCall "cuInit" 0].

(** The object a construction that completes leaves behind. *)
Definition ctor_object (e : env) (b : build) : cuda :=
  {| _library := Some (ST_CUDA_NAME b);
     fn := foldl (bind_stmt e) ∅ (table b) |}.

(** The first required statement of a block whose symbol is missing. *)
Fixpoint first_missing (e : env) (l : list stmt) : option stmt :=
  match l with
  | [] => None
  | s :: l' => if required s && missing e s then Some s else first_missing e l'
  end.

(** What the loader and the table alone say the constructor must return. *)
Definition ctor_res (e : env) (b : build) : outcome unit :=
  match library_load e (ST_CUDA_NAME b) with
  | LoadFails w => Throw w
  | Opened =>
      match first_missing e (table b) with
      | Some s => Throw (fail_msg b (logical s))
      | None => Ret tt
      end
  end.

(** The same environment with another behaviour of the driver's [cuInit]. *)
Definition with_cuInit (f : Z → Z) (e : env) : env :=
  {| library_load := library_load e;
     load_symbol := load_symbol e;
     drv_cuDriverGetVersion := drv_cuDriverGetVersion e;
     drv_cuInit := f |}.

(** The warning an optional statement logs when its symbol is missing. *)
Definition opt_warning (b : build) (s : stmt) : event :=
  D_LOG b FnCtor LOG_WARNING (opt_msg (logical s)) [AInt 0].

(** A driver that lacks the required [cuMemFree_v2] and the optional
    [cuCtxGetCurrent]. *)
Definition driver_without_cuMemFree : env :=
  without ["cuMemFree_v2"; "cuCtxGetCurrent"] full_driver.

(** A driver that lacks only optional symbols, one of each kind. *)
Definition driver_without_optionals : env :=
  without ["cuCtxGetCurrent"; "cuMemsetD16_v2"] full_driver.

(** The same environment with another behaviour of the driver's version
    query. *)
Definition with_cuDriverGetVersion (f : Z → Z * Z) (e : env) : env :=
  {| library_load := library_load e;
     load_symbol := load_symbol e;
     drv_cuDriverGetVersion := f;
     drv_cuInit := drv_cuInit e |}.

(** A driver whose version query fails without touching the out-parameter. *)
Definition failing_query_driver : env :=
  with_cuDriverGetVersion (λ v, (999, v)) full_driver.

(** A driver whose version query fails with status 999 after storing 77 in
    the out-parameter. *)
Definition storing_failing_driver : env :=
  with_cuDriverGetVersion (λ _, (999, 77)) full_driver.

(** ** Well-formed registry states *)

(** Only the object [instance] observes can have strong references; the heap
    holds exactly the objects with a positive count; identities are handed
    out in increasing order. *)
Definition wf (p : process) : Prop :=
  (∀ i, strong_count p i ≠ 0%nat → instance p = Some i) ∧
  (∀ i, is_Some (heap p !! i) ↔ strong_count p i ≠ 0%nat) ∧
  (∀ i, is_Some (use_count p !! i) → (i < next_this p)%nat).

(** The handles the calls of [get] in [ops] have returned, in order. *)
Fixpoint returned (b : build) (ops : list op) (p : process) : list nat :=
  match ops with
  | [] => []
  | o :: ops' =>
      match o with
      | OpGet e => match (get e b p).1.1 with
                   | Ret (Some i) => [i]
                   | _ => []
                   end
      | _ => []
      end ++ returned b ops' (step b o p).1
  end.

(** ** Further observations *)

(** The statements a run over block [l] executes: up to and including the
    first required one whose symbol is missing. *)
Fixpoint upto_missing (e : env) (l : list stmt) : list stmt :=
  match l with
  | [] => []
  | s :: l' => s :: (if required s && missing e s then [] else upto_missing e l')
  end.

(** The statements of the table a run of the constructor executes. *)
Definition reached (e : env) (b : build) : list stmt :=
  match library_load e (ST_CUDA_NAME b) with
  | Opened => upto_missing e (table b)
  | LoadFails _ => []
  end.

(** The events of a run over block [l] when the library is open. *)
Definition block_trace (e : env) (b : build) (l : list stmt) : list event :=
  block_events e b (upto_missing e l).

(** The events of any run of the constructor, completed or not. *)
Definition ctor_trace (e : env) (b : build) (this : nat) : list event :=
  [init_log b this; EvLibraryLoad (ST_CUDA_NAME b)]
  ++ match library_load e (ST_CUDA_NAME b) with
     | LoadFails _ => []
     | Opened =>
         block_trace e b block1
         ++ (if required_present e block1 then
               [EvCall "cuDriverGetVersion" 0; version_log e b]
               ++ block_trace e b (block3 b)
               ++ (if required_present e (block3 b)
                   then [EvCall "cuInit" 0] else [])
             else [])
     end.

(** The calls made through bound entry points along a trace, in order. *)
Definition call_of (ev : event) : option (string * Z) :=
  match ev with EvCall n a => Some (n, a) | _ => None end.
Definition driver_calls (tr : list event) : list (string * Z) := omap call_of tr.

(** The log lines of one level along a trace, in order. *)
Definition log_of (lvl : level) (ev : event) : option (string * list arg) :=
  match ev with
  | EvLog l fmt args => if bool_decide (l = lvl) then Some (fmt, args) else None
  | _ => None
  end.
Definition logs_at (lvl : level) (tr : list event) : list (string * list arg) :=
  omap (log_of lvl) tr.

(** The libraries opened along a trace, in order. *)
Definition library_of (ev : event) : option string :=
  match ev with EvLibraryLoad f => Some f | _ => None end.
Definition libraries_opened (tr : list event) : list string := omap library_of tr.

(** The range of [int32_t]. *)
Definition int32_range (z : Z) : Prop := -2147483648 ≤ z ≤ 2147483647.

(** A driver with the common entry points but none of the Direct3D ones. *)
Definition driver_without_d3d : env :=
  without ["cuD3D10GetDevice"; "cuGraphicsD3D10RegisterResource";
           "cuD3D11GetDevice"; "cuGraphicsD3D11RegisterResource"] full_driver.

(** A Windows build in which [_WIN64] is defined and [WIN32] is not. *)
Definition win64_only_build : build :=
  {| def_DEBUG := false; def_WIN32_or_WIN64 := true; def_WIN32 := false;
     FUNCTION_SIG := λ _, EmptyString; PRIuPTR := "llu"; PRId32 := "d" |}.

(** ** [get()] among concurrent consumers

    The mutex of [get] excludes other calls of [get], not the consumers: a
    consumer may copy or drop a reference it holds at any moment, from
    another thread. Reference counts change atomically, so inside [get] this
    shows at one place only: between [instance.expired()] and what follows
    it. [between] is what the consumers do there. *)

Inductive consumer_op :=
| ConsumerCopy (i : nat)
| ConsumerRelease (i : nat).

Definition consumer_step (c : consumer_op) : op :=
  match c with
  | ConsumerCopy i => OpCopy i
  | ConsumerRelease i => OpRelease i
  end.

Definition get_among (e : env) (b : build) (between : list consumer_op)
    (p : process) : outcome (option nat) * process * list event :=
  if expired p then
    let '(p1, t1) := steps b (consumer_step <$> between) p in
    let this := next_this p1 in
    let r := construct e b this in
    match res r with
    | Ret _ =>
        (Ret (Some this),
         {| instance := Some this;
            use_count := <[this := 1%nat]> (use_count p1);
            heap := <[this := obj r]> (heap p1);
            next_this := S this |},
         t1 ++ evs r)
    | Throw w => (Throw w, p1, t1 ++ evs r)
    | Undefined => (Undefined, p1, t1 ++ evs r)
    end
  else
    let '(p1, t1) := steps b (consumer_step <$> between) p in
    let '(hard, p2) := lock p1 in (Ret hard, p2, t1).

(** * Properties *)

(** A decidable closed proposition, settled by evaluation. *)
Ltac by_computation := apply (bool_decide_unpack _); vm_compute; reflexivity.

(** ** The monad *)

Ltac unfold_M :=
  unfold mbind, M_bind, mret, M_ret, throw, emit, assign,
    lib_load_symbol, call in *.

Lemma bind_ret {A B} (m : M A) (f : A → M B) c a c' t :
  m c = Run (Ret a) c' t →
  (m ≫= f) c = Run (res (f a c')) (obj (f a c')) (t ++ evs (f a c')).
Proof. intros H. unfold mbind, M_bind. by rewrite H. Qed.

Lemma bind_throw {A B} (m : M A) (f : A → M B) c w c' t :
  m c = Run (Throw w) c' t → (m ≫= f) c = Run (Throw w) c' t.
Proof. intros H. unfold mbind, M_bind. by rewrite H. Qed.

(** ** One statement *)

Lemma exec_spec e b s c f :
  _library c = Some f →
  exec e b s c =
    Run (if missing e s && required s
         then Throw (fail_msg b (logical s)) else Ret tt)
        {| _library := Some f; fn := bind_stmt e (fn c) s |}
        (stmt_events e b s).
Proof.
  intros Hlib. unfold stmt_events, bind_stmt, missing.
  destruct s; simpl;
    unfold P_CUDA_LOAD_SYMBOL, P_CUDA_LOAD_SYMBOL_OPT, P_CUDA_LOAD_SYMBOL_EX,
      P_CUDA_LOAD_SYMBOL_OPT_EX, P_CUDA_LOAD_SYMBOL_V2, P_CUDA_LOAD_SYMBOL_OPT_V2;
    unfold_M; rewrite Hlib; simpl; rewrite Hlib;
    case_decide; case_bool_decide; try contradiction; simpl; reflexivity.
Qed.

(** ** A block of statements *)

Lemma exec_all_ok e b l : ∀ c f,
  _library c = Some f →
  required_present e l = true →
  exec_all e b l c =
    Run (Ret tt) {| _library := Some f; fn := foldl (bind_stmt e) (fn c) l |}
        (block_events e b l).
Proof.
  induction l as [|s l IH]; intros c f Hlib Hreq; simpl.
  - unfold_M. destruct c; simpl in *; by subst.
  - simpl in Hreq. apply andb_prop in Hreq as [Hs Hl].
    pose proof (exec_spec e b s c f Hlib) as Hx.
    assert (missing e s && required s = false) as Hc.
    { destruct (required s), (missing e s); done. }
    rewrite Hc in Hx. rewrite (bind_ret _ _ _ _ _ _ Hx).
    rewrite (IH _ f); [| done | done]. simpl.
    done.
Qed.

Lemma exec_all_fail e b l1 s l2 c f :
  _library c = Some f →
  required_present e l1 = true →
  required s = true → missing e s = true →
  exec_all e b (l1 ++ s :: l2) c =
    Run (Throw (fail_msg b (logical s)))
        {| _library := Some f; fn := foldl (bind_stmt e) (fn c) (l1 ++ [s]) |}
        (block_events e b l1 ++ [EvLoadSymbol (lookup_name s)]).
Proof.
  revert c. induction l1 as [|s1 l1 IH]; intros c Hlib Hreq Hs Hm; simpl.
  - pose proof (exec_spec e b s c f Hlib) as Hx.
    unfold stmt_events in Hx. rewrite Hs, Hm in Hx. simpl in Hx.
    by rewrite (bind_throw _ _ _ _ _ _ Hx).
  - simpl in Hreq. apply andb_prop in Hreq as [Hs1 Hl1].
    pose proof (exec_spec e b s1 c f Hlib) as Hx.
    assert (missing e s1 && required s1 = false) as Hc.
    { destruct (required s1), (missing e s1); done. }
    rewrite Hc in Hx. rewrite (bind_ret _ _ _ _ _ _ Hx).
    rewrite IH; [| done | done | done | done]. simpl.
    unfold block_events. simpl. by rewrite <- app_assoc.
Qed.

(** A block either has all its required symbols, or splits at the first
    required statement whose symbol is missing. *)
Lemma required_present_split e l :
  required_present e l = true ∨
  ∃ l1 s l2, l = l1 ++ s :: l2 ∧ required_present e l1 = true ∧
             required s = true ∧ missing e s = true.
Proof.
  induction l as [|s l [IH | (l1 & s' & l2 & -> & H1 & H2 & H3)]].
  - by left.
  - destruct (required s) eqn:Hr, (missing e s) eqn:Hm;
      try (left; simpl; by rewrite Hr, Hm).
    right. by exists [], s, l.
  - destruct (required s) eqn:Hr, (missing e s) eqn:Hm;
      try (right; exists (s :: l1), s', l2; simpl; by rewrite Hr, Hm).
    right. by exists [], s, (l1 ++ s' :: l2).
Qed.

(** ** Members after a block *)

Lemma bound_lookup_notin e l : ∀ m n,
  n ∉ logical <$> l → foldl (bind_stmt e) m l !! n = m !! n.
Proof.
  induction l as [|s l IH]; intros m n Hn; simpl; first done.
  rewrite fmap_cons in Hn. apply not_elem_of_cons in Hn as [Hne Hn].
  rewrite IH by done. unfold bind_stmt. by rewrite lookup_insert_ne.
Qed.

Lemma bound_lookup e l : ∀ m s,
  NoDup (logical <$> l) → s ∈ l →
  foldl (bind_stmt e) m l !! logical s = Some (load_symbol e (lookup_name s)).
Proof.
  induction l as [|s0 l IH]; intros m s Hnd Hin; simpl.
  - by apply elem_of_nil in Hin.
  - rewrite fmap_cons in Hnd. apply NoDup_cons in Hnd as [Hnotin Hnd].
    apply elem_of_cons in Hin as [-> | Hin].
    + rewrite bound_lookup_notin by done.
      unfold bind_stmt. by rewrite lookup_insert_eq.
    + by apply IH.
Qed.

Lemma bound_dom e l : ∀ m n,
  is_Some (foldl (bind_stmt e) m l !! n) → n ∈ logical <$> l ∨ is_Some (m !! n).
Proof.
  induction l as [|s l IH]; intros m n H; simpl in *; first by right.
  apply IH in H as [H | H]; first by left; right.
  unfold bind_stmt in H. destruct (decide (logical s = n)) as [<- | Hne].
  - left. by left.
  - rewrite lookup_insert_ne in H by done. by right.
Qed.

Lemma required_present_elem e l s :
  required_present e l = true → s ∈ l → required s = true →
  load_symbol e (lookup_name s) ≠ 0.
Proof.
  unfold required_present. rewrite forallb_forall.
  intros H Hin Hr. apply list_elem_of_In, H in Hin.
  rewrite Hr in Hin. simpl in Hin. unfold missing in Hin.
  by case_bool_decide.
Qed.

Lemma required_present_app e l1 l2 :
  required_present e (l1 ++ l2) = required_present e l1 && required_present e l2.
Proof. unfold required_present. by rewrite forallb_app. Qed.

(** ** The table of this constructor *)

Lemma table_logical_NoDup b : NoDup (logical <$> table b).
Proof.
  unfold table, block3. destruct (def_WIN32 b);
    by_computation.
Qed.

Lemma table_lookup_NoDup b : NoDup (lookup_name <$> table b).
Proof.
  unfold table, block3. destruct (def_WIN32 b);
    by_computation.
Qed.

Lemma cuInit_not_in_block3 b : "cuInit" ∉ logical <$> block3 b.
Proof.
  unfold block3. destruct (def_WIN32 b);
    by_computation.
Qed.

(** ** Traces *)

Lemma symbols_requested_app t1 t2 :
  symbols_requested (t1 ++ t2) = symbols_requested t1 ++ symbols_requested t2.
Proof.
  induction t1 as [|ev t1 IH]; simpl; first done.
  destruct ev; simpl; by rewrite ?IH.
Qed.

Lemma symbols_requested_D_LOG b f lvl x args t :
  symbols_requested (D_LOG b f lvl x args :: t) = symbols_requested t.
Proof. unfold D_LOG. by destruct (def_DEBUG b). Qed.

Lemma symbols_requested_block e b l :
  symbols_requested (block_events e b l) = lookup_name <$> l.
Proof.
  induction l as [|s l IH]; first done.
  unfold block_events in *. cbn [map concat].
  rewrite symbols_requested_app, IH, fmap_cons.
  unfold stmt_events. cbn [symbols_requested].
  destruct (missing e s && negb (required s));
    by rewrite ?symbols_requested_D_LOG.
Qed.

Lemma calls_to_app n t1 t2 :
  calls_to n (t1 ++ t2) = calls_to n t1 ++ calls_to n t2.
Proof.
  induction t1 as [|ev t1 IH]; simpl; first done.
  destruct ev; simpl; rewrite ?IH; try done. by case_bool_decide.
Qed.

Lemma calls_to_D_LOG n b f lvl x args t :
  calls_to n (D_LOG b f lvl x args :: t) = calls_to n t.
Proof. unfold D_LOG. by destruct (def_DEBUG b). Qed.

Lemma calls_to_block n e b l : calls_to n (block_events e b l) = [].
Proof.
  induction l as [|s l IH]; first done.
  unfold block_events in *. cbn [map concat].
  rewrite calls_to_app, IH, app_nil_r.
  unfold stmt_events. cbn [calls_to].
  destruct (missing e s && negb (required s));
    by rewrite ?calls_to_D_LOG.
Qed.

Lemma version_log_is_log e b : ∃ lvl fmt args, version_log e b = EvLog lvl fmt args.
Proof.
  unfold version_log, D_LOG. destruct (drv_cuDriverGetVersion e 0) as [r v].
  case_decide; destruct (def_DEBUG b); eauto.
Qed.

(** ** The constructor *)

Lemma emit_run ev c : emit ev c = Run (Ret tt) c [ev].
Proof. done. Qed.

Lemma lib_load_opened e name c :
  library_load e name = Opened →
  lib_load e name c =
    Run (Ret tt) {| _library := Some name; fn := fn c |} [EvLibraryLoad name].
Proof. intros H. unfold lib_load. by rewrite H. Qed.

Lemma call_bound {A} NAME a (driver : Z → A) c p :
  fn c !! NAME = Some p → p ≠ 0 →
  call NAME a driver c = Run (Ret (driver a)) c [EvCall NAME a].
Proof. intros H Hp. unfold call. rewrite H. by case_decide. Qed.

Lemma block2_spec e b c p :
  fn c !! "cuDriverGetVersion" = Some p → p ≠ 0 →
  block2 e b c = Run (Ret tt) c [EvCall "cuDriverGetVersion" 0; version_log e b].
Proof.
  intros H Hp. unfold block2.
  rewrite (bind_ret _ _ _ _ _ _ (call_bound _ _ _ _ _ H Hp)).
  unfold version_log. destruct (drv_cuDriverGetVersion e 0) as [r v].
  by case_decide.
Qed.

Lemma version_spec e c p :
  fn c !! "cuDriverGetVersion" = Some p → p ≠ 0 →
  version e c =
    Run (Ret (drv_cuDriverGetVersion e 0).2) c [EvCall "cuDriverGetVersion" 0].
Proof.
  intros H Hp. unfold version.
  rewrite (bind_ret _ _ _ _ _ _ (call_bound _ _ _ _ _ H Hp)).
  by destruct (drv_cuDriverGetVersion e 0).
Qed.

Lemma ctor_load_fails e b this w :
  library_load e (ST_CUDA_NAME b) = LoadFails w →
  cuda_ctor e b this cuda_fresh =
    Run (Throw w) cuda_fresh [init_log b this; EvLibraryLoad (ST_CUDA_NAME b)].
Proof.
  intros H. unfold cuda_ctor.
  rewrite (bind_ret _ _ _ _ _ _ (emit_run _ _)).
  erewrite (bind_throw (lib_load _ _)); first done.
  unfold lib_load. by rewrite H.
Qed.

(** After block 1 the two critical entry points are bound. *)
Lemma block1_bound e m :
  required_present e block1 = true →
  ∃ p, foldl (bind_stmt e) m block1 !! "cuDriverGetVersion" = Some p ∧ p ≠ 0.
Proof.
  intros H. exists (load_symbol e "cuDriverGetVersion"). split.
  - simpl. unfold bind_stmt. simpl. by rewrite lookup_insert_eq.
  - apply (required_present_elem e block1 (LOAD "cuDriverGetVersion") H);
      [by_computation | done].
Qed.

Lemma ctor_fail_block1 e b this l1 s l2 :
  library_load e (ST_CUDA_NAME b) = Opened →
  block1 = l1 ++ s :: l2 →
  required_present e l1 = true → required s = true → missing e s = true →
  cuda_ctor e b this cuda_fresh =
    Run (Throw (fail_msg b (logical s)))
        {| _library := Some (ST_CUDA_NAME b);
           fn := foldl (bind_stmt e) ∅ (l1 ++ [s]) |}
        ([init_log b this; EvLibraryLoad (ST_CUDA_NAME b)]
         ++ block_events e b l1 ++ [EvLoadSymbol (lookup_name s)]).
Proof.
  intros Hopen Hsplit H1 Hs Hm. unfold cuda_ctor.
  rewrite (bind_ret _ _ _ _ _ _ (emit_run _ _)).
  rewrite (bind_ret _ _ _ _ _ _ (lib_load_opened _ _ _ Hopen)).
  rewrite Hsplit.
  erewrite (bind_throw (exec_all _ _ _)); first done.
  by apply exec_all_fail.
Qed.

Lemma ctor_fail_block3 e b this l1 s l2 :
  library_load e (ST_CUDA_NAME b) = Opened →
  required_present e block1 = true →
  block3 b = l1 ++ s :: l2 →
  required_present e l1 = true → required s = true → missing e s = true →
  cuda_ctor e b this cuda_fresh =
    Run (Throw (fail_msg b (logical s)))
        {| _library := Some (ST_CUDA_NAME b);
           fn := foldl (bind_stmt e) ∅ (block1 ++ l1 ++ [s]) |}
        ([init_log b this; EvLibraryLoad (ST_CUDA_NAME b)]
         ++ block_events e b block1
         ++ [EvCall "cuDriverGetVersion" 0; version_log e b]
         ++ block_events e b l1 ++ [EvLoadSymbol (lookup_name s)]).
Proof.
  intros Hopen Hb1 Hsplit H1 Hs Hm. unfold cuda_ctor.
  rewrite (bind_ret _ _ _ _ _ _ (emit_run _ _)).
  rewrite (bind_ret _ _ _ _ _ _ (lib_load_opened _ _ _ Hopen)).
  erewrite (bind_ret (exec_all _ _ block1));
    last by apply (exec_all_ok _ _ _ _ (ST_CUDA_NAME b)).
  cbn [fn cuda_fresh].
  destruct (block1_bound e ∅ Hb1) as (p & Hp & Hp0).
  erewrite (bind_ret (block2 _ _)); last by apply (block2_spec _ _ _ p).
  rewrite Hsplit.
  erewrite (bind_throw (exec_all _ _ _));
    last by apply (exec_all_fail _ _ _ _ _ _ (ST_CUDA_NAME b)).
  cbn [res obj evs fn]. by rewrite (foldl_app _ block1).
Qed.

Lemma ctor_ok e b this :
  library_load e (ST_CUDA_NAME b) = Opened →
  required_present e (table b) = true →
  cuda_ctor e b this cuda_fresh = Run (Ret tt) (ctor_object e b) (ctor_events e b this).
Proof.
  intros Hopen Hreq. unfold table in Hreq.
  rewrite required_present_app in Hreq. apply andb_prop in Hreq as [Hb1 Hb3].
  unfold cuda_ctor.
  rewrite (bind_ret _ _ _ _ _ _ (emit_run _ _)).
  rewrite (bind_ret _ _ _ _ _ _ (lib_load_opened _ _ _ Hopen)).
  erewrite (bind_ret (exec_all _ _ block1));
    last by apply (exec_all_ok _ _ _ _ (ST_CUDA_NAME b)).
  cbn [fn cuda_fresh].
  destruct (block1_bound e ∅ Hb1) as (p & Hp & Hp0).
  erewrite (bind_ret (block2 _ _)); last by apply (block2_spec _ _ _ p).
  erewrite (bind_ret (exec_all _ _ (block3 b)));
    last by apply (exec_all_ok _ _ _ _ (ST_CUDA_NAME b)).
  cbn [fn].
  assert (foldl (bind_stmt e) (foldl (bind_stmt e) ∅ block1) (block3 b)
            !! "cuInit" = Some (load_symbol e "cuInit")) as Hinit.
  { rewrite bound_lookup_notin by apply cuInit_not_in_block3.
    simpl. unfold bind_stmt. simpl.
    rewrite lookup_insert_ne by done. by rewrite lookup_insert_eq. }
  assert (load_symbol e "cuInit" ≠ 0) as Hinit0.
  { apply (required_present_elem e block1 (LOAD "cuInit") Hb1);
      [by_computation | done]. }
  erewrite (bind_ret (call _ _ _));
    last by apply (call_bound _ _ _ _ (load_symbol e "cuInit")).
  cbn [res obj evs fn mret M_ret].
  unfold ctor_object, ctor_events, table. rewrite (foldl_app _ block1).
  by rewrite app_nil_r.
Qed.

(** Every run of the constructor is of one of three kinds: the library does
    not open; the library opens and the run stops at the first required
    statement whose symbol is missing; or the run completes. *)
Lemma ctor_cases e b this :
  (∃ w, library_load e (ST_CUDA_NAME b) = LoadFails w ∧
        cuda_ctor e b this cuda_fresh =
          Run (Throw w) cuda_fresh
              [init_log b this; EvLibraryLoad (ST_CUDA_NAME b)])
  ∨ (library_load e (ST_CUDA_NAME b) = Opened ∧
     ∃ l1 s l2 tr,
       table b = l1 ++ s :: l2 ∧ required_present e l1 = true ∧
       required s = true ∧ missing e s = true ∧
       cuda_ctor e b this cuda_fresh =
         Run (Throw (fail_msg b (logical s)))
             {| _library := Some (ST_CUDA_NAME b);
                fn := foldl (bind_stmt e) ∅ (l1 ++ [s]) |} tr ∧
       symbols_requested tr = lookup_name <$> (l1 ++ [s]) ∧
       calls_to "cuInit" tr = [])
  ∨ (library_load e (ST_CUDA_NAME b) = Opened ∧
     required_present e (table b) = true ∧
     cuda_ctor e b this cuda_fresh =
       Run (Ret tt) (ctor_object e b) (ctor_events e b this)).
Proof.
  destruct (library_load e (ST_CUDA_NAME b)) as [|w] eqn:Hopen.
  2: { left. exists w. split; [done | by apply ctor_load_fails]. }
  right.
  destruct (required_present_split e block1)
    as [Hb1 | (l1 & s & l2 & Hsplit & H1 & Hs & Hm)].
  - destruct (required_present_split e (block3 b))
      as [Hb3 | (l1 & s & l2 & Hsplit & H1 & Hs & Hm)].
    + right. split; first done.
      assert (required_present e (table b) = true) as Hreq.
      { unfold table. by rewrite required_present_app, Hb1, Hb3. }
      split; [done | by apply ctor_ok].
    + left. split; first done.
      eexists (block1 ++ l1), s, l2, _.
      split. { unfold table. by rewrite Hsplit, <- app_assoc. }
      split. { by rewrite required_present_app, Hb1, H1. }
      do 2 (split; first done).
      split. { rewrite <- app_assoc. by eapply ctor_fail_block3. }
      destruct (version_log_is_log e b) as (lvl & fmt & args & Hlog).
      split.
      * rewrite !symbols_requested_app, !symbols_requested_block, !fmap_app.
        unfold init_log. rewrite symbols_requested_D_LOG, Hlog.
        cbn [symbols_requested app]. by rewrite <- app_assoc.
      * rewrite !calls_to_app, !calls_to_block.
        unfold init_log. rewrite calls_to_D_LOG, Hlog. done.
  - left. split; first done.
    eexists l1, s, (l2 ++ block3 b), _.
    split. { unfold table. by rewrite Hsplit, <- app_assoc. }
    do 3 (split; first done).
    split. { by eapply ctor_fail_block1. }
    split.
    + rewrite !symbols_requested_app, !symbols_requested_block, !fmap_app.
      unfold init_log. by rewrite symbols_requested_D_LOG.
    + rewrite !calls_to_app, !calls_to_block.
      unfold init_log. by rewrite calls_to_D_LOG.
Qed.

(** ** What decides the outcome *)

Lemma first_missing_none e l :
  required_present e l = true → first_missing e l = None.
Proof.
  induction l as [|s l IH]; simpl; first done.
  intros [Hs Hl]%andb_prop.
  destruct (required s), (missing e s); simpl in *; try done; by apply IH.
Qed.

Lemma first_missing_split e l1 s l2 :
  required_present e l1 = true → required s = true → missing e s = true →
  first_missing e (l1 ++ s :: l2) = Some s.
Proof.
  induction l1 as [|s1 l1 IH]; simpl; intros H1 Hs Hm.
  - by rewrite Hs, Hm.
  - apply andb_prop in H1 as [Hs1 Hl1].
    destruct (required s1), (missing e s1); simpl in *; try done; by apply IH.
Qed.

Lemma first_missing_ext e e' l :
  (∀ s, s ∈ l → required s = true → missing e' s = missing e s) →
  first_missing e' l = first_missing e l.
Proof.
  induction l as [|s l IH]; simpl; intros H; first done.
  destruct (required s) eqn:Hr; simpl.
  - rewrite (H s) by (done || by left).
    destruct (missing e s); first done.
    apply IH. intros s' Hin. apply H. by right.
  - apply IH. intros s' Hin. apply H. by right.
Qed.

Lemma ctor_res_spec e b this : res (cuda_ctor e b this cuda_fresh) = ctor_res e b.
Proof.
  unfold ctor_res.
  destruct (ctor_cases e b this)
    as [(w & Hopen & ->)
       | [(Hopen & l1 & s & l2 & tr & Hsplit & H1 & Hs & Hm & -> & _)
         | (Hopen & Hreq & ->)]]; rewrite Hopen; cbn [res].
  - done.
  - by rewrite Hsplit, first_missing_split.
  - by rewrite first_missing_none.
Qed.

Lemma construct_res e b this : res (construct e b this) = ctor_res e b.
Proof.
  rewrite <- (ctor_res_spec e b this). unfold construct. cbv zeta.
  destruct (res (cuda_ctor e b this cuda_fresh)) eqn:H; simpl; by rewrite ?H.
Qed.

Lemma construct_symbols e b this :
  symbols_requested (evs (construct e b this)) =
  symbols_requested (evs (cuda_ctor e b this cuda_fresh)).
Proof.
  unfold construct. cbv zeta.
  destruct (res (cuda_ctor e b this cuda_fresh)); simpl; try done;
    rewrite symbols_requested_app;
    destruct (_library _); simpl; by rewrite app_nil_r.
Qed.

Lemma construct_ok e b this :
  library_load e (ST_CUDA_NAME b) = Opened →
  required_present e (table b) = true →
  construct e b this = Run (Ret tt) (ctor_object e b) (ctor_events e b this).
Proof.
  intros Hopen Hreq. unfold construct. by rewrite ctor_ok.
Qed.

(** A construction completes exactly when the library opens and every
    required symbol of the table is found. *)
Lemma construct_ret_inv e b this :
  res (construct e b this) = Ret tt →
  library_load e (ST_CUDA_NAME b) = Opened ∧ required_present e (table b) = true.
Proof.
  unfold construct.
  destruct (ctor_cases e b this)
    as [(w & Hopen & ->)
       | [(Hopen & l1 & s & l2 & tr & Hsplit & H1 & Hs & Hm & -> & _)
         | (Hopen & Hreq & ->)]]; simpl; done.
Qed.

Lemma construct_never_undefined e b this : res (construct e b this) ≠ Undefined.
Proof.
  rewrite construct_res. unfold ctor_res.
  destruct (library_load _ _); first destruct (first_missing _ _); done.
Qed.

Lemma NoDup_fmap_elem_inj {A B} (f : A → B) (l : list A) x y :
  NoDup (f <$> l) → x ∈ l → y ∈ l → f x = f y → x = y.
Proof.
  induction l as [|a l IH]; intros Hnd Hx Hy Hf.
  - by apply elem_of_nil in Hx.
  - rewrite fmap_cons in Hnd. apply NoDup_cons in Hnd as [Ha Hnd].
    apply elem_of_cons in Hx as [-> | Hx]; apply elem_of_cons in Hy as [-> | Hy].
    + done.
    + exfalso. apply Ha. rewrite Hf. by apply list_elem_of_fmap_2.
    + exfalso. apply Ha. rewrite <- Hf. by apply list_elem_of_fmap_2.
    + by apply IH.
Qed.

Lemma contains_here n c : contains n (n +:+ c) = true.
Proof.
  assert (String.prefix n (n +:+ c) = true) as Hp.
  { induction n as [|ch n IH]; first by destruct c.
    simpl. destruct (Ascii.ascii_dec ch ch); done. }
  destruct (n +:+ c); unfold contains; fold contains; by rewrite Hp.
Qed.

Lemma contains_skip a n h : contains n h = true → contains n (a +:+ h) = true.
Proof.
  intros H. induction a as [|ch a IH]; first done.
  change (String ch a +:+ h) with (String ch (a +:+ h)).
  unfold contains; fold contains. rewrite IH. apply orb_true_r.
Qed.

(** On a completed construction every required entry point of the table is
    bound and non-null. *)
Lemma ready_entry_bound e b this s :
  res (construct e b this) = Ret tt → s ∈ table b → required s = true →
  ∃ p, fn (obj (construct e b this)) !! logical s = Some p ∧ p ≠ 0.
Proof.
  intros Hret Hin Hreq.
  apply construct_ret_inv in Hret as [Hopen Hpresent].
  rewrite construct_ok by done. cbn [obj ctor_object fn].
  exists (load_symbol e (lookup_name s)). split.
  - apply bound_lookup; [apply table_logical_NoDup | done].
  - by apply (required_present_elem e (table b) s).
Qed.

(** ** Sample runs *)

Example full_driver_ready :
  res (construct full_driver linux_build 0) = Ret tt
  ∧ symbols_requested (evs (construct full_driver linux_build 0))
    = lookup_name <$> table linux_build.
Proof. split; vm_compute; reflexivity. Qed.

Example d3d_entry_points_required_on_windows :
  res (construct (without ["cuD3D10GetDevice"] full_driver) windows_build 0)
    = Throw "Failed to load 'cuD3D10GetDevice' from 'nvcuda.dll'."
  ∧ res (construct (without ["cuD3D10GetDevice"] full_driver) linux_build 0)
    = Ret tt.
Proof. split; vm_compute; reflexivity. Qed.

Example debug_build_warning :
  stmt_events driver_without_optionals linux_debug_build (LOAD_OPT "cuCtxGetCurrent")
  = [EvLoadSymbol "cuCtxGetCurrent";
     EvLog LOG_WARNING "<%s> Loading of optional symbol 'cuCtxGetCurrent' failed."
       [AStr "streamfx::nvidia::cuda::cuda::cuda()"; AInt 0]].
Proof. vm_compute; reflexivity. Qed.

Example no_driver_fails_before_any_symbol :
  construct no_driver linux_build 7
  = Run (Throw "Failed to load library.") cuda_fresh
        [init_log linux_build 7; EvLibraryLoad "libcuda.so.1"].
Proof. vm_compute; reflexivity. Qed.

Example last_release_destroys :
  let '(p, tr) := steps linux_build [OpGet full_driver; OpRelease 0] process_start in
  expired p = true ∧ heap p = ∅ ∧ instance p = Some 0%nat
  ∧ last tr = Some (EvLibraryRelease "libcuda.so.1").
Proof. vm_compute. repeat split; reflexivity. Qed.

Example second_generation_is_a_new_object :
  (get full_driver linux_build
     (steps linux_build [OpGet full_driver; OpRelease 0] process_start).1).1.1
  = Ret (Some 1%nat).
Proof. vm_compute; reflexivity. Qed.

(** * Main theorems *)

(** ** Required symbols *)

(** C2. For every required statement of the table (exact-name or versioned):
    when the constructor asks the loader for its symbol and the loader returns
    null, the constructor throws ["Failed to load 'NAME' from 'FILE'."], which
    names the symbol and the library file; [get] propagates the error and
    creates no object; and the same error is raised in every environment that
    agrees on the library and on the required symbols, whatever the optional
    symbols do. A missing required symbol always makes construction fail.
    Conversely, when construction completes, every required entry point of
    the table is bound to a non-null address. *)
Theorem required_symbol_missing_aborts b this :
  (∀ e s, s ∈ table b → required s = true →
     lookup_name s ∈ symbols_requested (evs (construct e b this)) →
     load_symbol e (lookup_name s) = 0 →
     res (construct e b this) = Throw (fail_msg b (logical s)) ∧
     contains (logical s) (fail_msg b (logical s)) = true ∧
     contains (ST_CUDA_NAME b) (fail_msg b (logical s)) = true ∧
     (∀ p, expired p = true → next_this p = this →
           (get e b p).1 = (Throw (fail_msg b (logical s)), p)) ∧
     (∀ e', library_load e' (ST_CUDA_NAME b) = library_load e (ST_CUDA_NAME b) →
            (∀ s', s' ∈ table b → required s' = true →
                   load_symbol e' (lookup_name s') = load_symbol e (lookup_name s')) →
            res (construct e' b this) = Throw (fail_msg b (logical s))))
  ∧ (∀ e s, s ∈ table b → required s = true →
       load_symbol e (lookup_name s) = 0 →
       ∃ w, res (construct e b this) = Throw w)
  ∧ (∀ e, res (construct e b this) = Ret tt →
       ∀ s, s ∈ table b → required s = true →
         ∃ p, fn (obj (construct e b this)) !! logical s = Some p ∧ p ≠ 0).
Proof.
  split; [|split].
  - intros e s Hin Hreq Hasked Hnull.
    assert (res (construct e b this) = Throw (fail_msg b (logical s))) as Hres.
    { rewrite construct_symbols in Hasked. unfold construct. cbv zeta.
      destruct (ctor_cases e b this)
        as [(w & Hopen & Hrun)
           | [(Hopen & l1 & s0 & l2 & tr & Hsplit & H1 & Hs & Hm & Hrun & Hsym & _)
             | (Hopen & Hpresent & Hrun)]];
        rewrite Hrun in *; cbn [res evs] in *.
      - unfold init_log in Hasked. rewrite symbols_requested_D_LOG in Hasked.
        by apply elem_of_nil in Hasked.
      - rewrite Hsym in Hasked.
        apply list_elem_of_fmap in Hasked as (s1 & Heq & Hin1).
        assert (s1 ∈ table b) as Hin1'.
        { rewrite Hsplit. apply elem_of_app in Hin1 as [?|Hin1%list_elem_of_singleton].
          - apply elem_of_app. by left.
          - subst. apply elem_of_app. right. by left. }
        assert (s = s1) as <-
          by (eapply NoDup_fmap_elem_inj; eauto using table_lookup_NoDup).
        apply elem_of_app in Hin1 as [Hin1 | ->%list_elem_of_singleton]; last done.
        exfalso. by apply (required_present_elem e l1 s H1 Hin1 Hreq).
      - exfalso. by apply (required_present_elem e (table b) s Hpresent Hin Hreq). }
    split; first done.
    split. { unfold fail_msg. apply contains_skip, contains_here. }
    split. { unfold fail_msg. do 3 apply contains_skip. apply contains_here. }
    split.
    + intros p Hexp <-. unfold get. rewrite Hexp. cbv zeta. by rewrite Hres.
    + intros e' Hlib Hsyms. rewrite construct_res in *. unfold ctor_res in *.
      rewrite Hlib. rewrite (first_missing_ext e e'); first done.
      intros s' Hin' Hreq'. unfold missing. by rewrite Hsyms.
  - intros e s Hin Hreq Hnull. rewrite construct_res. unfold ctor_res.
    destruct (library_load e (ST_CUDA_NAME b)); last by eauto.
    destruct (first_missing e (table b)) eqn:Hfm; first by eauto.
    exfalso. destruct (required_present_split e (table b))
      as [Hp | (l1 & s0 & l2 & Hsplit & H1 & Hs & Hm)].
    + by apply (required_present_elem e (table b) s Hp Hin Hreq).
    + by rewrite Hsplit, first_missing_split in Hfm.
  - intros e Hret s Hin Hreq. by apply ready_entry_bound.
Qed.

Lemma required_symbol_missing_aborts_witness :
  res (construct driver_without_cuMemFree linux_build 0)
    = Throw "Failed to load 'cuMemFree' from 'libcuda.so.1'."
  ∧ (∃ w, res (construct driver_without_cuMemFree linux_build 0) = Throw w)
  ∧ (∃ p, fn (obj (construct full_driver linux_build 0)) !! "cuMemFree" = Some p
          ∧ p ≠ 0).
Proof.
  destruct (required_symbol_missing_aborts linux_build 0) as (H1 & H2 & H3).
  split; [|split].
  - refine (proj1 (H1 driver_without_cuMemFree (LOAD_V2 "cuMemFree") _ _ _ _));
      [by_computation | reflexivity | by_computation | vm_compute; reflexivity].
  - refine (H2 driver_without_cuMemFree (LOAD_V2 "cuMemFree") _ _ _);
      [by_computation | reflexivity | vm_compute; reflexivity].
  - refine (H3 full_driver _ (LOAD_V2 "cuMemFree") _ _);
      [vm_compute; reflexivity | by_computation | reflexivity].
Defined.

(** ** Optional symbols *)

Lemma opt_warning_in_block e b l s :
  s ∈ l → required s = false → missing e s = true →
  opt_warning b s ∈ block_events e b l.
Proof.
  intros Hin Hr Hm. induction l as [|s0 l IH].
  - by apply elem_of_nil in Hin.
  - unfold block_events. cbn [map concat]. apply elem_of_app.
    apply elem_of_cons in Hin as [<- | Hin].
    + left. unfold stmt_events. rewrite Hr, Hm. cbn [andb negb].
      right. by left.
    + right. by apply IH.
Qed.

Lemma ctor_events_symbols e b this :
  symbols_requested (ctor_events e b this) = lookup_name <$> table b.
Proof.
  unfold ctor_events, init_log, table.
  destruct (version_log_is_log e b) as (lvl & fmt & args & Hlog).
  rewrite !symbols_requested_app, !symbols_requested_block, fmap_app.
  rewrite symbols_requested_D_LOG, Hlog. cbn [symbols_requested app].
  by rewrite app_nil_r.
Qed.

Lemma opt_warning_names b s :
  ∃ fmt args, opt_warning b s = EvLog LOG_WARNING fmt args ∧
              contains (logical s) fmt = true.
Proof.
  unfold opt_warning, D_LOG, opt_msg.
  destruct (def_DEBUG b); eexists _, _; (split; first done);
    do 2 apply contains_skip; apply contains_here.
Qed.

(** C3. For every optional statement of the table whose symbol the loader
    does not find: the outcome of construction is the same as in any
    environment that agrees on the library and on the required symbols;
    and when the library opens and all required symbols resolve,
    construction completes (Ready), every statement of the table has been
    resolved in order, the optional entry point is recorded as null and a
    warning naming the symbol has been logged. *)
Theorem optional_symbol_missing_tolerated b this :
  (∀ e e', library_load e' (ST_CUDA_NAME b) = library_load e (ST_CUDA_NAME b) →
     (∀ s, s ∈ table b → required s = true →
           load_symbol e' (lookup_name s) = load_symbol e (lookup_name s)) →
     res (construct e' b this) = res (construct e b this))
  ∧ (∀ e, library_load e (ST_CUDA_NAME b) = Opened →
       required_present e (table b) = true →
       res (construct e b this) = Ret tt ∧
       symbols_requested (evs (construct e b this)) = lookup_name <$> table b ∧
       ∀ s, s ∈ table b → required s = false →
            load_symbol e (lookup_name s) = 0 →
            fn (obj (construct e b this)) !! logical s = Some 0 ∧
            opt_warning b s ∈ evs (construct e b this) ∧
            ∃ fmt args, opt_warning b s = EvLog LOG_WARNING fmt args ∧
                        contains (logical s) fmt = true).
Proof.
  split.
  - intros e e' Hlib Hsyms. rewrite !construct_res. unfold ctor_res.
    rewrite Hlib, (first_missing_ext e e'); first done.
    intros s Hin Hreq. unfold missing. by rewrite Hsyms.
  - intros e Hopen Hpresent. rewrite construct_ok by done. cbn [res obj evs].
    split; first done.
    split; first apply ctor_events_symbols.
    intros s Hin Hopt Hnull. split; [|split].
    + unfold ctor_object. cbn [fn]. rewrite <- Hnull.
      apply bound_lookup; [apply table_logical_NoDup | done].
    + assert (missing e s = true) as Hm
        by (unfold missing; by apply bool_decide_eq_true).
      unfold ctor_events, table in *.
      apply elem_of_app in Hin as [Hin | Hin].
      * apply elem_of_app. right. apply elem_of_app. left.
        by apply opt_warning_in_block.
      * do 3 (apply elem_of_app; right). apply elem_of_app. left.
        by apply opt_warning_in_block.
    + apply opt_warning_names.
Qed.

Lemma optional_symbol_missing_tolerated_witness :
  res (construct driver_without_optionals linux_build 0) = Ret tt
  ∧ fn (obj (construct driver_without_optionals linux_build 0)) !! "cuMemsetD16"
      = Some 0
  ∧ EvLog LOG_WARNING
      "<nvidia::cuda::cuda> Loading of optional symbol 'cuMemsetD16' failed."
      [AInt 0] ∈ evs (construct driver_without_optionals linux_build 0)
  ∧ res (construct driver_without_optionals linux_build 0)
      = res (construct full_driver linux_build 0).
Proof.
  destruct (optional_symbol_missing_tolerated linux_build 0) as [H1 H2].
  destruct (H2 driver_without_optionals) as (Hret & _ & Hopt);
    [vm_compute; reflexivity | vm_compute; reflexivity |].
  destruct (Hopt (LOAD_OPT_V2 "cuMemsetD16")) as (Hnull & Hwarn & _);
    [by_computation | reflexivity | vm_compute; reflexivity |].
  split; first exact Hret.
  split; first exact Hnull.
  split; first exact Hwarn.
  refine (H1 full_driver driver_without_optionals _ _); first reflexivity.
  intros s Hin Hreq. unfold driver_without_optionals, without. cbn [load_symbol].
  case_bool_decide as Hs; last done.
  assert (Forall (λ s, required s = true →
                       lookup_name s ∉ ["cuCtxGetCurrent"; "cuMemsetD16_v2"])
                 (table linux_build)) as HF by by_computation.
  rewrite Forall_forall in HF. by destruct (HF s Hin Hreq).
Defined.

(** ** Versioned symbols *)

Lemma stmt_events_symbols e b s :
  symbols_requested (stmt_events e b s) = [lookup_name s].
Proof.
  pose proof (symbols_requested_block e b [s]) as H.
  unfold block_events in H. cbn [map concat] in H. by rewrite app_nil_r in H.
Qed.

(** No logical name bound under the versioned policy is itself looked up, and
    no suffixed name is a member of the class. *)
Lemma versioned_names_apart b :
  Forall (λ s, versioned s = true →
               (logical s ∉ lookup_name <$> table b) ∧
               lookup_name s ∉ logical <$> table b) (table b).
Proof.
  unfold table, block3. destruct (def_WIN32 b); by_computation.
Qed.

(** C4. Under the versioned-suffix policy (required or optional) the string
    passed to [load_symbol] for the logical name X is exactly X followed by
    ["_v2"], and the address obtained is stored in the member named X. For
    the versioned statements of the table, a completed construction has asked
    the loader for ["X_v2"] and never for ["X"], the member X holds what the
    loader returned for ["X_v2"], and there is no member named ["X_v2"]. *)
Theorem versioned_lookup_suffix e b :
  (∀ NAME c f, _library c = Some f →
     symbols_requested (evs (P_CUDA_LOAD_SYMBOL_V2 e b NAME c))
       = [NAME +:+ "_v2"] ∧
     fn (obj (P_CUDA_LOAD_SYMBOL_V2 e b NAME c))
       = <[NAME := load_symbol e (NAME +:+ "_v2")]> (fn c) ∧
     symbols_requested (evs (P_CUDA_LOAD_SYMBOL_OPT_V2 e b NAME c))
       = [NAME +:+ "_v2"] ∧
     fn (obj (P_CUDA_LOAD_SYMBOL_OPT_V2 e b NAME c))
       = <[NAME := load_symbol e (NAME +:+ "_v2")]> (fn c))
  ∧ (∀ this s, s ∈ table b → versioned s = true →
       res (construct e b this) = Ret tt →
       lookup_name s = logical s +:+ "_v2" ∧
       logical s +:+ "_v2" ∈ symbols_requested (evs (construct e b this)) ∧
       (logical s ∉ symbols_requested (evs (construct e b this))) ∧
       fn (obj (construct e b this)) !! logical s
         = Some (load_symbol e (logical s +:+ "_v2")) ∧
       fn (obj (construct e b this)) !! (logical s +:+ "_v2") = None).
Proof.
  split.
  - intros NAME c f Hlib.
    pose proof (exec_spec e b (LOAD_V2 NAME) c f Hlib) as Hreq.
    pose proof (exec_spec e b (LOAD_OPT_V2 NAME) c f Hlib) as Hopt.
    cbn [exec] in Hreq, Hopt. rewrite Hreq, Hopt. cbn [evs obj fn].
    by rewrite !stmt_events_symbols.
  - intros this s Hin Hv Hret.
    assert (lookup_name s = logical s +:+ "_v2") as Hname by by destruct s.
    apply construct_ret_inv in Hret as [Hopen Hpresent].
    rewrite construct_ok by done. cbn [res obj evs ctor_object fn].
    rewrite ctor_events_symbols.
    pose proof (versioned_names_apart b) as Hapart.
    rewrite Forall_forall in Hapart.
    destruct (Hapart s Hin Hv) as [Hlog Hsuf].
    split; first done.
    split. { rewrite <- Hname. by apply list_elem_of_fmap_2. }
    split; first done.
    split.
    + rewrite <- Hname. apply bound_lookup; [apply table_logical_NoDup | done].
    + rewrite <- Hname. apply eq_None_not_Some. intros Hsome.
      apply bound_dom in Hsome as [Hmem | Hempty]; first done.
      rewrite lookup_empty in Hempty. by destruct Hempty.
Qed.

Lemma versioned_lookup_suffix_witness :
  "cuCtxCreate_v2" ∈ symbols_requested (evs (construct full_driver windows_build 0))
  ∧ ("cuCtxCreate" ∉ symbols_requested (evs (construct full_driver windows_build 0)))
  ∧ fn (obj (construct full_driver windows_build 0)) !! "cuCtxCreate" = Some 4096
  ∧ symbols_requested
      (evs (P_CUDA_LOAD_SYMBOL_OPT_V2 full_driver windows_build "cuMemcpyAtoA"
              {| _library := Some "nvcuda.dll"; fn := ∅ |}))
    = ["cuMemcpyAtoA_v2"].
Proof.
  destruct (versioned_lookup_suffix full_driver windows_build) as [Hmacro Hctor].
  destruct (Hctor 0%nat (LOAD_V2 "cuCtxCreate")) as (_ & Hask & Hnot & Hfn & _);
    [by_computation | reflexivity | vm_compute; reflexivity |].
  split; first exact Hask.
  split; first exact Hnot.
  split; first exact Hfn.
  refine (proj1 (proj2 (proj2
            (Hmacro "cuMemcpyAtoA" {| _library := Some "nvcuda.dll"; fn := ∅ |}
                    "nvcuda.dll" eq_refl)))).
Defined.

(** C10. For every statement of the table bound under the versioned-suffix
    policy, the error message (required case) and the warning (optional case)
    produced when the lookup of ["X_v2"] fails contain the logical name X and
    do not contain the suffixed name ["X_v2"] that was looked up. *)
Theorem versioned_failure_names_logical b s :
  s ∈ table b → versioned s = true →
  lookup_name s = logical s +:+ "_v2" ∧
  contains (logical s) (fail_msg b (logical s)) = true ∧
  contains (lookup_name s) (fail_msg b (logical s)) = false ∧
  contains (logical s) (ST_PREFIX b +:+ opt_msg (logical s)) = true ∧
  contains (lookup_name s) (ST_PREFIX b +:+ opt_msg (logical s)) = false ∧
  ∀ e c f, _library c = Some f → load_symbol e (lookup_name s) = 0 →
    symbols_requested (evs (exec e b s c)) = [lookup_name s] ∧
    (required s = true →
       res (exec e b s c) = Throw (fail_msg b (logical s))) ∧
    (required s = false →
       res (exec e b s c) = Ret tt ∧
       ∃ args, evs (exec e b s c)
               = [EvLoadSymbol (lookup_name s);
                  EvLog LOG_WARNING (ST_PREFIX b +:+ opt_msg (logical s)) args]).
Proof.
  intros Hin Hv.
  assert (Forall (λ s, versioned s = true →
            contains (lookup_name s) (fail_msg b (logical s)) = false ∧
            contains (lookup_name s) (ST_PREFIX b +:+ opt_msg (logical s)) = false)
            (table b)) as Hcheck.
  { destruct b as [dbg w64 w sig pu pd]. destruct dbg, w64, w; by_computation. }
  rewrite Forall_forall in Hcheck. destruct (Hcheck s Hin Hv) as [Hfail Hopt].
  split; first by destruct s.
  split. { unfold fail_msg. apply contains_skip, contains_here. }
  split; first done.
  split. { unfold opt_msg. do 2 apply contains_skip. apply contains_here. }
  split; first done.
  intros e c f Hlib Hnull.
  assert (missing e s = true) as Hm
    by (unfold missing; by apply bool_decide_eq_true).
  rewrite (exec_spec e b s c f Hlib). cbn [res evs]. rewrite Hm.
  split; first apply stmt_events_symbols.
  split; intros Hr; rewrite Hr; cbn [andb]; first done.
  split; first done.
  unfold stmt_events. rewrite Hm, Hr. cbn [andb negb].
  unfold D_LOG. destruct (def_DEBUG b); eauto.
Qed.

Lemma versioned_failure_names_logical_witness :
  contains "cuMemFree_v2" (fail_msg linux_build "cuMemFree") = false
  ∧ contains "cuMemFree" (fail_msg linux_build "cuMemFree") = true
  ∧ res (exec driver_without_cuMemFree linux_build (LOAD_V2 "cuMemFree")
           {| _library := Some "libcuda.so.1"; fn := ∅ |})
    = Throw "Failed to load 'cuMemFree' from 'libcuda.so.1'.".
Proof.
  destruct (versioned_failure_names_logical linux_build (LOAD_V2 "cuMemFree"))
    as (_ & Hyes & Hno & _ & _ & Hrun); [by_computation | reflexivity |].
  split; first exact Hno.
  split; first exact Hyes.
  refine (proj1 (proj2 (Hrun driver_without_cuMemFree
            {| _library := Some "libcuda.so.1"; fn := ∅ |} "libcuda.so.1"
            eq_refl _)) eq_refl).
  vm_compute; reflexivity.
Defined.

(** ** Driver initialisation *)

Lemma mbind_ext {A B} (m m' : M A) (f g : A → M B) c :
  m c = m' c → (∀ a c', f a c' = g a c') → (m ≫= f) c = (m' ≫= g) c.
Proof.
  intros Hm Hf. unfold mbind, M_bind. cbv zeta. rewrite Hm.
  destruct (res (m' c)); by rewrite ?Hf.
Qed.

Lemma exec_all_with_cuInit f e b l : ∀ c,
  exec_all (with_cuInit f e) b l c = exec_all e b l c.
Proof.
  induction l as [|s l IH]; intros c; first done.
  cbn [exec_all]. apply mbind_ext; [by destruct s | intros; apply IH].
Qed.

Lemma call_result_discarded {A} NAME a (d d' : Z → A) c :
  (call NAME a d;; mret tt) c = (call NAME a d';; mret tt) c.
Proof.
  unfold mbind, M_bind, call. cbv zeta.
  destruct (fn c !! NAME) as [p|]; last done. by case_decide.
Qed.

Lemma cuda_ctor_with_cuInit f e b this c :
  cuda_ctor (with_cuInit f e) b this c = cuda_ctor e b this c.
Proof.
  unfold cuda_ctor.
  apply mbind_ext; [done | intros _ c1].
  apply mbind_ext; [done | intros _ c2].
  apply mbind_ext; [apply exec_all_with_cuInit | intros _ c3].
  apply mbind_ext; [done | intros _ c4].
  apply mbind_ext; [apply exec_all_with_cuInit | intros _ c5].
  apply call_result_discarded.
Qed.

Lemma block1_events e b :
  block_events e b block1
  = [EvLoadSymbol "cuInit"; EvLoadSymbol "cuDriverGetVersion"].
Proof.
  unfold block_events, block1, stmt_events. cbn [map concat required negb].
  by rewrite !andb_false_r.
Qed.

(** C6. The constructor calls [cuInit] exactly once, with argument 0, as its
    last action, after every statement of the table has been resolved; its
    return code is not inspected: the whole run is the same whatever
    [cuInit] returns, and construction completes (Ready) for every return
    value as soon as the library opens and the required symbols resolve. *)
Theorem cuInit_once_result_ignored b this :
  (∀ e f, construct (with_cuInit f e) b this = construct e b this)
  ∧ (∀ e, res (construct e b this) = Ret tt →
       calls_to "cuInit" (evs (construct e b this)) = [0] ∧
       ∃ tr, evs (construct e b this) = tr ++ [EvCall "cuInit" 0] ∧
             symbols_requested tr = lookup_name <$> table b ∧
             calls_to "cuInit" tr = [])
  ∧ (∀ e code, library_load e (ST_CUDA_NAME b) = Opened →
       required_present e (table b) = true →
       res (construct (with_cuInit (λ _, code) e) b this) = Ret tt).
Proof.
  assert (∀ e f, construct (with_cuInit f e) b this = construct e b this) as Hsame.
  { intros e f. unfold construct. by rewrite cuda_ctor_with_cuInit. }
  split; first done. split.
  - intros e Hret. apply construct_ret_inv in Hret as [Hopen Hpresent].
    rewrite construct_ok by done. cbn [evs].
    destruct (version_log_is_log e b) as (lvl & fmt & args & Hlog).
    assert (calls_to "cuInit"
              ([init_log b this; EvLibraryLoad (ST_CUDA_NAME b)]
               ++ block_events e b block1
               ++ [EvCall "cuDriverGetVersion" 0; version_log e b]
               ++ block_events e b (block3 b)) = []) as Hnone.
    { rewrite !calls_to_app, !calls_to_block. unfold init_log.
      by rewrite calls_to_D_LOG, Hlog. }
    assert (ctor_events e b this
            = ([init_log b this; EvLibraryLoad (ST_CUDA_NAME b)]
               ++ block_events e b block1
               ++ [EvCall "cuDriverGetVersion" 0; version_log e b]
               ++ block_events e b (block3 b)) ++ [EvCall "cuInit" 0]) as Hsplit.
    { unfold ctor_events. by rewrite <- !app_assoc. }
    split.
    + by rewrite Hsplit, calls_to_app, Hnone.
    + eexists. split; first exact Hsplit. split; last done.
      pose proof (ctor_events_symbols e b this) as Hsym.
      rewrite Hsplit, symbols_requested_app in Hsym.
      by rewrite app_nil_r in Hsym.
  - intros e code Hopen Hpresent. rewrite Hsame. by rewrite construct_ok.
Qed.

Lemma cuInit_once_result_ignored_witness :
  calls_to "cuInit" (evs (construct (with_cuInit (λ _, 100) full_driver) linux_build 0))
    = [0]
  ∧ res (construct (with_cuInit (λ _, 100) full_driver) linux_build 0) = Ret tt.
Proof.
  destruct (cuInit_once_result_ignored linux_build 0) as (_ & Honce & Hready).
  split.
  - refine (proj1 (Honce (with_cuInit (λ _, 100) full_driver) _)).
    vm_compute; reflexivity.
  - refine (Hready full_driver 100 _ _); vm_compute; reflexivity.
Defined.

(** ** Order of resolution *)

(** C9. In every construction that completes, the trace begins with: the
    library being opened, the resolution of [cuInit] and of
    [cuDriverGetVersion], the version query through the latter and the
    version log line; every other symbol of the table is resolved after that
    prefix, and neither of the two critical symbols is resolved again. *)
Theorem critical_symbols_first e b this :
  res (construct e b this) = Ret tt →
  ∃ rest,
    evs (construct e b this)
      = [init_log b this; EvLibraryLoad (ST_CUDA_NAME b);
         EvLoadSymbol "cuInit"; EvLoadSymbol "cuDriverGetVersion";
         EvCall "cuDriverGetVersion" 0; version_log e b] ++ rest ∧
    table b = [LOAD "cuInit"; LOAD "cuDriverGetVersion"] ++ block3 b ∧
    symbols_requested rest = lookup_name <$> block3 b ∧
    ("cuInit" ∉ symbols_requested rest) ∧
    ("cuDriverGetVersion" ∉ symbols_requested rest) ∧
    ∃ lvl fmt args, version_log e b = EvLog lvl fmt args.
Proof.
  intros Hret. apply construct_ret_inv in Hret as [Hopen Hpresent].
  rewrite construct_ok by done. cbn [evs].
  exists (block_events e b (block3 b) ++ [EvCall "cuInit" 0]).
  assert (symbols_requested (block_events e b (block3 b) ++ [EvCall "cuInit" 0])
          = lookup_name <$> block3 b) as Hsym.
  { rewrite symbols_requested_app, symbols_requested_block. apply app_nil_r. }
  split. { unfold ctor_events. by rewrite block1_events. }
  split; first done.
  split; first done.
  rewrite Hsym.
  split; [|split]; last apply version_log_is_log;
    unfold block3; destruct (def_WIN32 b); by_computation.
Qed.

Lemma critical_symbols_first_witness :
  ∃ rest,
    evs (construct full_driver linux_build 0)
      = [init_log linux_build 0; EvLibraryLoad "libcuda.so.1";
         EvLoadSymbol "cuInit"; EvLoadSymbol "cuDriverGetVersion";
         EvCall "cuDriverGetVersion" 0;
         EvLog LOG_INFO "<nvidia::cuda::cuda> Driver reported CUDA version: %d.%d.%d"
           [AInt 11; AInt 2; AInt 0]] ++ rest ∧
    "cuInit" ∉ symbols_requested rest.
Proof.
  destruct (critical_symbols_first full_driver linux_build 0)
    as (rest & Hevs & _ & _ & Hnot & _); first (vm_compute; reflexivity).
  exists rest. split; [exact Hevs | exact Hnot].
Defined.

(** ** Driver version *)

Lemma version_log_in_ctor_events e b this : version_log e b ∈ ctor_events e b this.
Proof.
  unfold ctor_events. do 2 (apply elem_of_app; right).
  apply elem_of_app. left. right. by left.
Qed.

(** C7. The components logged by the constructor for a raw driver version
    [v] are [v/1000], [(v%1000)/10] and [v%10], with the integer division and
    remainder of C++ (which on non-negative [v] are the floor division and
    the modulus); they invert the encoding [major*1000 + minor*10 + patch];
    and 11020 decodes to 11, 2, 0. *)
Theorem version_decoding v :
  (∀ e b this, res (construct e b this) = Ret tt →
     drv_cuDriverGetVersion e 0 = (SUCCESS, v) →
     D_LOG b FnCtor LOG_INFO (version_fmt b)
       [AInt (v ÷ 1000); AInt (Z.rem v 1000 ÷ 10); AInt (Z.rem v 10)]
     ∈ evs (construct e b this))
  ∧ (version_major v, version_minor v, version_patch v)
      = (v ÷ 1000, Z.rem v 1000 ÷ 10, Z.rem v 10)
  ∧ (0 ≤ v →
     (version_major v, version_minor v, version_patch v)
       = (v `div` 1000, (v `mod` 1000) `div` 10, v `mod` 10))
  ∧ (∀ major minor patch,
       0 ≤ major → 0 ≤ minor < 100 → 0 ≤ patch < 10 →
       v = major * 1000 + minor * 10 + patch →
       (version_major v, version_minor v, version_patch v) = (major, minor, patch))
  ∧ (version_major 11020, version_minor 11020, version_patch 11020) = (11, 2, 0).
Proof.
  assert (0 ≤ v →
          (version_major v, version_minor v, version_patch v)
            = (v `div` 1000, (v `mod` 1000) `div` 10, v `mod` 10)) as Hfloor.
  { intros Hv. unfold version_major, version_minor, version_patch.
    rewrite (Z.quot_div_nonneg v 1000), (Z.rem_mod_nonneg v 1000),
      (Z.rem_mod_nonneg v 10) by lia.
    rewrite Z.quot_div_nonneg; [done | | lia].
    apply Z.mod_pos_bound. lia. }
  split; [|split; [|split; [|split]]].
  - intros e b this Hret Hdrv.
    apply construct_ret_inv in Hret as [Hopen Hpresent].
    rewrite construct_ok by done. cbn [evs].
    pose proof (version_log_in_ctor_events e b this) as Hin.
    unfold version_log in Hin. rewrite Hdrv in Hin.
    by rewrite decide_True in Hin.
  - done.
  - done.
  - intros major minor patch Hmaj Hmin Hpat ->. rewrite Hfloor by lia.
    assert ((major * 1000 + minor * 10 + patch) `div` 1000 = major) as ->.
    { symmetry. apply (Z.div_unique _ 1000 major (minor * 10 + patch)); lia. }
    assert ((major * 1000 + minor * 10 + patch) `mod` 1000 = minor * 10 + patch) as ->.
    { symmetry. apply (Z.mod_unique _ 1000 major (minor * 10 + patch)); lia. }
    assert ((minor * 10 + patch) `div` 10 = minor) as ->.
    { symmetry. apply (Z.div_unique _ 10 minor patch); lia. }
    assert ((major * 1000 + minor * 10 + patch) `mod` 10 = patch) as ->.
    { symmetry. apply (Z.mod_unique _ 10 (major * 100 + minor) patch); lia. }
    done.
  - done.
Qed.

Lemma version_decoding_witness :
  EvLog LOG_INFO "<nvidia::cuda::cuda> Driver reported CUDA version: %d.%d.%d"
    [AInt 11; AInt 2; AInt 0] ∈ evs (construct full_driver linux_build 0)
  ∧ (version_major 11020, version_minor 11020, version_patch 11020) = (11, 2, 0).
Proof.
  destruct (version_decoding 11020) as (Hlog & _ & _ & Hrt & _).
  split.
  - refine (Hlog full_driver linux_build 0%nat _ _); vm_compute; reflexivity.
  - refine (Hrt 11 2 0 _ _ _ _); [lia | lia | lia | reflexivity].
Defined.

(** The claim as the specification words it: on a Ready handle, a failing
    version query makes [version()] return 0 or the failure code. The code
    does not do that: it discards the status and returns the out-parameter.
    Here the query fails with status 999 after storing 77, and [version()]
    returns 77. *)
Lemma version_failure_value_counterexample :
  ¬ (∀ e0 b this e,
       res (construct e0 b this) = Ret tt →
       (drv_cuDriverGetVersion e 0).1 ≠ SUCCESS →
       res (version e (obj (construct e0 b this))) = Ret 0 ∨
       res (version e (obj (construct e0 b this)))
         = Ret (drv_cuDriverGetVersion e 0).1).
Proof.
  intros Hclaim.
  assert (res (construct full_driver linux_build 0) = Ret tt) as Hready
    by (vm_compute; reflexivity).
  assert ((drv_cuDriverGetVersion storing_failing_driver 0).1 ≠ SUCCESS) as Hfail
    by (vm_compute; discriminate).
  assert (res (version storing_failing_driver
                 (obj (construct full_driver linux_build 0))) = Ret 77) as Hrun
    by (vm_compute; reflexivity).
  destruct (Hclaim full_driver linux_build 0%nat storing_failing_driver Hready Hfail)
    as [H0 | Hcode]; rewrite Hrun in *.
  - discriminate.
  - vm_compute in Hcode. discriminate.
Qed.

(** C8 (amended). On a handle produced by a completed construction,
    [version()] calls the driver's [cuDriverGetVersion] once, with the
    out-parameter initialised to 0, and returns the content of the
    out-parameter after the call, whatever status the query returns: the
    version a successful query reports; after a failing query the value the
    driver left there, which is 0 when the driver leaves the out-parameter
    untouched. The status code is discarded: two drivers that leave the same
    value give the same result. The call is defined (the entry point is bound
    and non-null), leaves the handle as it is and never throws. *)
Theorem version_returns_out_parameter e0 b this e :
  res (construct e0 b this) = Ret tt →
  version e (obj (construct e0 b this))
    = Run (Ret (drv_cuDriverGetVersion e 0).2) (obj (construct e0 b this))
          [EvCall "cuDriverGetVersion" 0]
  ∧ (∀ v, drv_cuDriverGetVersion e 0 = (SUCCESS, v) →
          res (version e (obj (construct e0 b this))) = Ret v)
  ∧ (∀ code v, code ≠ SUCCESS → drv_cuDriverGetVersion e 0 = (code, v) →
          res (version e (obj (construct e0 b this))) = Ret v)
  ∧ ((drv_cuDriverGetVersion e 0).1 ≠ SUCCESS → keeps_out_on_failure e →
     res (version e (obj (construct e0 b this))) = Ret 0)
  ∧ (∀ e', (drv_cuDriverGetVersion e' 0).2 = (drv_cuDriverGetVersion e 0).2 →
           res (version e' (obj (construct e0 b this)))
           = res (version e (obj (construct e0 b this))))
  ∧ (∀ w, res (version e (obj (construct e0 b this))) ≠ Throw w)
  ∧ res (version e (obj (construct e0 b this))) ≠ Undefined.
Proof.
  intros Hret.
  destruct (ready_entry_bound e0 b this (LOAD "cuDriverGetVersion") Hret)
    as (p & Hp & Hp0); [unfold table; by_computation | done |].
  cbn [logical] in Hp. rewrite (version_spec e _ p Hp Hp0). cbn [res].
  split; first done.
  split. { intros v Hv. by rewrite Hv. }
  split. { intros code v _ Hv. by rewrite Hv. }
  split. { intros Hfail Hkeep. f_equal. by apply Hkeep. }
  split. { intros e' Hsame. rewrite (version_spec e' _ p Hp Hp0). cbn [res].
           by rewrite Hsame. }
  split; done.
Qed.

Lemma version_returns_out_parameter_witness :
  res (version full_driver (obj (construct full_driver linux_build 0))) = Ret 11020
  ∧ res (version storing_failing_driver (obj (construct full_driver linux_build 0)))
      = Ret 77
  ∧ res (version failing_query_driver (obj (construct full_driver linux_build 0)))
      = Ret 0.
Proof.
  destruct (version_returns_out_parameter full_driver linux_build 0 full_driver)
    as (_ & Hok & _); first (vm_compute; reflexivity).
  destruct (version_returns_out_parameter full_driver linux_build 0
              storing_failing_driver)
    as (_ & _ & Hstored & _); first (vm_compute; reflexivity).
  destruct (version_returns_out_parameter full_driver linux_build 0
              failing_query_driver)
    as (_ & _ & _ & Hfail & _); first (vm_compute; reflexivity).
  split; [|split].
  - refine (Hok 11020 _). reflexivity.
  - refine (Hstored 999 77 _ _); [vm_compute; discriminate | reflexivity].
  - refine (Hfail _ _).
    + vm_compute. discriminate.
    + intros v0 _. reflexivity.
Defined.

(** ** The shared instance *)

Lemma strong_count_insert p m h n i j k :
  strong_count {| instance := m; use_count := <[i := k]> (use_count p);
                  heap := h; next_this := n |} j
  = if decide (i = j) then k else strong_count p j.
Proof.
  unfold strong_count. cbn [use_count]. rewrite lookup_insert.
  by case_decide.
Qed.

Lemma strong_count_pos_is_Some p i :
  strong_count p i ≠ 0%nat → is_Some (use_count p !! i).
Proof.
  unfold strong_count. destruct (use_count p !! i); [eauto | done].
Qed.

Lemma expired_no_strong p : wf p → expired p = true → ∀ i, strong_count p i = 0%nat.
Proof.
  intros (Hinst & _ & _) Hexp i.
  destruct (decide (strong_count p i = 0%nat)) as [|Hne]; first done.
  apply Hinst in Hne as Hi. unfold expired in Hexp. rewrite Hi in Hexp.
  by apply bool_decide_eq_true in Hexp.
Qed.

Lemma not_expired_instance p :
  expired p = false → ∃ i, instance p = Some i ∧ strong_count p i ≠ 0%nat.
Proof.
  unfold expired. destruct (instance p) as [i|]; last done.
  intros H%bool_decide_eq_false. eauto.
Qed.

Lemma wf_start : wf process_start.
Proof.
  split; [|split]; intros i; unfold strong_count; cbn;
    rewrite ?lookup_empty; done.
Qed.

Lemma wf_acquire p i : wf p → strong_count p i ≠ 0%nat → wf (acquire i p).
Proof.
  intros (Hinst & Hheap & Hfresh) Hi. unfold acquire. split; [|split]; intros j.
  - rewrite strong_count_insert. cbn [instance]. case_decide; subst; auto.
  - rewrite strong_count_insert. cbn [heap]. case_decide; subst.
    + split; [done | intros _; by apply Hheap].
    + apply Hheap.
  - cbn [use_count next_this]. intros Hj.
    destruct (decide (i = j)) as [<- | Hne].
    + by apply Hfresh, strong_count_pos_is_Some.
    + rewrite lookup_insert_ne in Hj by done. by apply Hfresh.
Qed.

Lemma get_live e b p i :
  wf p → strong_count p i ≠ 0%nat →
  get e b p = (Ret (Some i), acquire i p, []).
Proof.
  intros (Hinst & _) Hi. pose proof (Hinst i Hi) as Hsome.
  unfold get, expired, lock. rewrite Hsome.
  by rewrite bool_decide_eq_false_2.
Qed.

Lemma get_expired e b p :
  expired p = true →
  get e b p =
    match res (construct e b (next_this p)) with
    | Ret _ =>
        (Ret (Some (next_this p)),
         {| instance := Some (next_this p);
            use_count := <[next_this p := 1%nat]> (use_count p);
            heap := <[next_this p := obj (construct e b (next_this p))]> (heap p);
            next_this := S (next_this p) |},
         evs (construct e b (next_this p)))
    | Throw w => (Throw w, p, evs (construct e b (next_this p)))
    | Undefined => (Undefined, p, evs (construct e b (next_this p)))
    end.
Proof. intros H. unfold get. by rewrite H. Qed.

Lemma wf_get e b p : wf p → wf (get e b p).1.2.
Proof.
  intros Hwf. destruct (expired p) eqn:Hexp.
  - rewrite get_expired by done.
    destruct (res (construct e b (next_this p))); [|done|done].
    pose proof (expired_no_strong p Hwf Hexp) as Hzero.
    destruct Hwf as (Hinst & Hheap & Hfresh).
    cbn [fst snd]. split; [|split]; intros j.
    + rewrite strong_count_insert. cbn [instance].
      case_decide; subst; [done | by rewrite Hzero].
    + rewrite strong_count_insert. cbn [heap]. case_decide; subst.
      * rewrite lookup_insert_eq. split; [done | eauto].
      * rewrite lookup_insert_ne by done. apply Hheap.
    + cbn [use_count next_this]. intros Hj.
      destruct (decide (next_this p = j)) as [<- | Hne]; first lia.
      rewrite lookup_insert_ne in Hj by done. apply Hfresh in Hj. lia.
  - apply not_expired_instance in Hexp as (i & Hi & Hpos).
    rewrite (get_live e b p i) by done. by apply wf_acquire.
Qed.

Lemma wf_copy p i : wf p → wf (copy i p).
Proof.
  intros Hwf. unfold copy. case_bool_decide; [done | by apply wf_acquire].
Qed.

Lemma wf_release b p i : wf p → wf (release b i p).1.
Proof.
  intros Hwf. pose proof Hwf as (Hinst & Hheap & Hfresh). unfold release.
  destruct (strong_count p i) as [|[|n]] eqn:Hc; first done.
  - cbn [fst]. split; [|split]; intros j.
    + rewrite strong_count_insert. cbn [instance]. case_decide; [done | auto].
    + rewrite strong_count_insert. cbn [heap]. case_decide; subst.
      * rewrite lookup_delete_eq. split; [by intros [] | done].
      * rewrite lookup_delete_ne by done. apply Hheap.
    + cbn [use_count next_this]. intros Hj.
      destruct (decide (i = j)) as [<- | Hne].
      * apply Hfresh, strong_count_pos_is_Some. by rewrite Hc.
      * rewrite lookup_insert_ne in Hj by done. by apply Hfresh.
  - cbn [fst]. split; [|split]; intros j.
    + rewrite strong_count_insert. cbn [instance]. case_decide; subst; auto.
      intros _. apply Hinst. by rewrite Hc.
    + rewrite strong_count_insert. cbn [heap]. case_decide; subst.
      * split; [done | intros _; apply Hheap; by rewrite Hc].
      * apply Hheap.
    + cbn [use_count next_this]. intros Hj.
      destruct (decide (i = j)) as [<- | Hne].
      * apply Hfresh, strong_count_pos_is_Some. by rewrite Hc.
      * rewrite lookup_insert_ne in Hj by done. by apply Hfresh.
Qed.

Lemma wf_step b o p : wf p → wf (step b o p).1.
Proof.
  intros Hwf. destruct o as [e | i | i]; cbn [step].
  - pose proof (wf_get e b p Hwf) as H.
    by destruct (get e b p) as [[o p'] tr].
  - by apply wf_copy.
  - by apply wf_release.
Qed.

Lemma steps_cons b o ops p :
  (steps b (o :: ops) p).1 = (steps b ops (step b o p).1).1.
Proof.
  cbn [steps]. destruct (step b o p) as [p1 t1]. cbn [fst].
  by destruct (steps b ops p1).
Qed.

Lemma wf_steps b ops : ∀ p, wf p → wf (steps b ops p).1.
Proof.
  induction ops as [|o ops IH]; intros p Hwf; first done.
  rewrite steps_cons. by apply IH, wf_step.
Qed.

Lemma step_strong_count b o p i :
  wf p → strong_count (step b o p).1 i ≠ 0%nat →
  strong_count p i ≠ 0%nat ∨
  ∃ e, o = OpGet e ∧ (get e b p).1.1 = Ret (Some i).
Proof.
  intros Hwf. destruct o as [e | j | j]; cbn [step].
  - destruct (expired p) eqn:Hexp.
    + rewrite get_expired by done.
      destruct (res (construct e b (next_this p))) eqn:Hres; cbn [fst snd]; auto.
      rewrite strong_count_insert. case_decide; subst; first last.
      { auto. }
      intros _. right. exists e. split; first done.
      rewrite get_expired by done. by rewrite Hres.
    + apply not_expired_instance in Hexp as (i0 & Hi0 & Hpos).
      rewrite (get_live e b p i0) by done. cbn [fst snd]. unfold acquire.
      rewrite strong_count_insert. case_decide; subst; auto.
  - cbn [fst]. unfold copy. case_bool_decide; first auto.
    unfold acquire. rewrite strong_count_insert. case_decide; subst; auto.
  - unfold release. destruct (strong_count p j) as [|[|n]] eqn:Hc;
      cbn [fst]; first auto;
      rewrite strong_count_insert; (case_decide; subst; [|auto]).
    + done.
    + intros _. left. by rewrite Hc.
Qed.

Lemma steps_strong_count_returned b ops : ∀ p i,
  wf p → strong_count (steps b ops p).1 i ≠ 0%nat →
  strong_count p i ≠ 0%nat ∨ i ∈ returned b ops p.
Proof.
  induction ops as [|o ops IH]; intros p i Hwf Hpos; first by left.
  rewrite steps_cons in Hpos. cbn [returned].
  apply IH in Hpos; last by apply wf_step.
  destruct Hpos as [Hpos | Hret].
  2: { right. apply elem_of_app. by right. }
  apply step_strong_count in Hpos; last done.
  destruct Hpos as [Hpos | (e & -> & Hget)]; first by left.
  right. apply elem_of_app. left. rewrite Hget. by left.
Qed.

(** Every run of the constructor starts by logging and opening the library. *)
Lemma construct_begins e b this :
  ∃ rest, evs (construct e b this)
          = init_log b this :: EvLibraryLoad (ST_CUDA_NAME b) :: rest.
Proof.
  unfold construct. cbv zeta.
  destruct (ctor_cases e b this)
    as [(w & Hopen & Hrun)
       | [(Hopen & l1 & s0 & l2 & tr & Hsplit & H1 & Hs & Hm & Hrun & _)
         | (Hopen & Hpresent & Hrun)]].
  - rewrite Hrun. cbn [res evs]. eauto.
  - pose proof Hrun as Hrun'. rewrite Hrun. cbn [res evs obj _library].
    destruct (required_present_split e block1)
      as [Hb1 | (k1 & s & k2 & Hk & Hk1 & Hks & Hkm)].
    + assert (∃ k1 s k2, block3 b = k1 ++ s :: k2 ∧ required_present e k1 = true ∧
                         required s = true ∧ missing e s = true)
        as (k1 & s & k2 & Hk & Hk1 & Hks & Hkm).
      { destruct (required_present_split e (block3 b)) as [Hb3 | H3]; last done.
        exfalso. pose proof (ctor_ok e b this Hopen) as Hok.
        unfold table in Hok. rewrite required_present_app, Hb1, Hb3 in Hok.
        rewrite Hok in Hrun' by done. discriminate. }
      rewrite (ctor_fail_block3 e b this k1 s k2) in Hrun' by done.
      injection Hrun' as _ _ <-. eauto.
    + rewrite (ctor_fail_block1 e b this k1 s k2) in Hrun' by done.
      injection Hrun' as _ _ <-. eauto.
  - rewrite Hrun. cbn [res]. unfold ctor_events. eauto.
Qed.

(** C1. In every state reached from process start by calls of [get] and by
    consumers copying and dropping the references they hold: at most one
    object is alive; an object is alive exactly while its reference count is
    positive; a live object was returned by an earlier [get] and is the one
    the registry observes; and a further [get] returns a reference to that
    very object, in any environment, without emitting a single event (no
    construction, no library or driver activity), leaving the heap as it is
    and raising the count by one. *)
Theorem shared_instance_unique b ops p :
  (steps b ops process_start).1 = p →
  (∀ i j, live p i → live p j → i = j) ∧
  (∀ i, live p i ↔ strong_count p i ≠ 0%nat) ∧
  (∀ i, live p i → i ∈ returned b ops process_start ∧ instance p = Some i) ∧
  (∀ i e, live p i →
     get e b p = (Ret (Some i), acquire i p, []) ∧
     heap (acquire i p) = heap p ∧
     strong_count (acquire i p) i = S (strong_count p i)).
Proof.
  intros <-. set (p := (steps b ops process_start).1).
  pose proof (wf_steps b ops process_start wf_start) as Hwf. fold p in Hwf.
  pose proof Hwf as (Hinst & Hheap & Hfresh).
  split; [|split; [|split]].
  - intros i j Hi%Hheap%Hinst Hj%Hheap%Hinst. congruence.
  - apply Hheap.
  - intros i Hi%Hheap. split; last by apply Hinst.
    destruct (steps_strong_count_returned b ops process_start i wf_start Hi)
      as [Hstart | Hret]; last done.
    exfalso. apply Hstart. unfold strong_count. cbn. by rewrite lookup_empty.
  - intros i e Hi%Hheap. split; first by apply get_live.
    split; first done.
    unfold acquire. rewrite strong_count_insert. by rewrite decide_True.
Qed.

Lemma shared_instance_unique_witness :
  get no_driver windows_build
      (steps windows_build [OpGet full_driver; OpCopy 0; OpRelease 0]
             process_start).1
  = (Ret (Some 0%nat),
     acquire 0 (steps windows_build [OpGet full_driver; OpCopy 0; OpRelease 0]
                      process_start).1,
     []).
Proof.
  destruct (shared_instance_unique windows_build
              [OpGet full_driver; OpCopy 0; OpRelease 0] _ eq_refl)
    as (_ & _ & _ & Hget).
  refine (proj1 (Hget 0%nat no_driver _)).
  vm_compute. eexists. reflexivity.
Defined.

(** C5. When [get] has to construct (the registry is expired) and the
    construction fails - the library does not open, or a required symbol of
    the table is missing - then [get] throws the constructor's error to its
    caller, the registry (weak slot, counts, heap) is exactly as before and
    still expired, and a later [get] runs the constructor afresh, from the
    opening of the library, its outcome depending on the environment of that
    later call only: it returns a new handle as soon as the library opens and
    the required symbols resolve. *)
Theorem failed_construction_leaves_registry e b p :
  expired p = true →
  library_load e (ST_CUDA_NAME b) ≠ Opened ∨ required_present e (table b) = false →
  ∃ w,
    res (construct e b (next_this p)) = Throw w ∧
    get e b p = (Throw w, p, evs (construct e b (next_this p))) ∧
    expired (get e b p).1.2 = true ∧
    instance (get e b p).1.2 = instance p ∧
    ∀ e',
      (get e' b (get e b p).1.2).2 = evs (construct e' b (next_this p)) ∧
      (∃ rest, (get e' b (get e b p).1.2).2
               = init_log b (next_this p) :: EvLibraryLoad (ST_CUDA_NAME b) :: rest) ∧
      (library_load e' (ST_CUDA_NAME b) = Opened →
       required_present e' (table b) = true →
       (get e' b (get e b p).1.2).1.1 = Ret (Some (next_this p)) ∧
       live (get e' b (get e b p).1.2).1.2 (next_this p)).
Proof.
  intros Hexp Hcause.
  assert (∃ w, res (construct e b (next_this p)) = Throw w) as [w Hw].
  { rewrite construct_res. unfold ctor_res.
    destruct (library_load e (ST_CUDA_NAME b)) eqn:Hopen; last by eauto.
    destruct Hcause as [Hne | Hmiss]; first done.
    destruct (required_present_split e (table b))
      as [Hp | (l1 & s & l2 & Hsplit & H1 & Hs & Hm)]; first congruence.
    rewrite Hsplit, first_missing_split by done. eauto. }
  exists w.
  assert (get e b p = (Throw w, p, evs (construct e b (next_this p)))) as Hget.
  { rewrite get_expired by done. by rewrite Hw. }
  rewrite Hget. cbn [fst snd].
  do 4 (split; first done).
  intros e'.
  assert ((get e' b p).2 = evs (construct e' b (next_this p))) as Hevs.
  { rewrite get_expired by done.
    by destruct (res (construct e' b (next_this p))). }
  split; first done.
  split. { rewrite Hevs. apply construct_begins. }
  intros Hopen Hpresent. rewrite get_expired by done.
  rewrite construct_ok by done. cbn [res fst snd].
  split; first done.
  unfold live. cbn [heap]. rewrite lookup_insert_eq. eauto.
Qed.

Lemma failed_construction_leaves_registry_witness :
  get no_driver linux_build process_start
    = (Throw "Failed to load library.", process_start,
       evs (construct no_driver linux_build 0))
  ∧ (get full_driver linux_build
         (get no_driver linux_build process_start).1.2).1.1
    = Ret (Some 0%nat).
Proof.
  destruct (failed_construction_leaves_registry no_driver linux_build process_start)
    as (w & Hw & Hget & _ & _ & Hretry);
    [reflexivity | left; vm_compute; discriminate |].
  split.
  - assert (w = "Failed to load library.") as Heq.
    { assert (res (construct no_driver linux_build 0)
              = Throw "Failed to load library.") as Hc by (vm_compute; reflexivity).
      change (next_this process_start) with 0%nat in Hw. congruence. }
    rewrite <- Heq. exact Hget.
  - destruct (Hretry full_driver) as (_ & _ & Hok).
    refine (proj1 (Hok _ _)); vm_compute; reflexivity.
Defined.

(** * Further properties of the constructor *)

Lemma upto_missing_all e l : required_present e l = true → upto_missing e l = l.
Proof.
  induction l as [|s l IH]; first done.
  cbn [required_present forallb upto_missing]. intros [Hs Hl]%andb_prop.
  assert (required s && missing e s = false) as ->
    by (destruct (required s), (missing e s); done).
  f_equal. by apply IH.
Qed.

Lemma upto_missing_split e l1 s l2 :
  required_present e l1 = true → required s = true → missing e s = true →
  upto_missing e (l1 ++ s :: l2) = l1 ++ [s].
Proof.
  induction l1 as [|s1 l1 IH]; intros H1 Hs Hm.
  - cbn [app upto_missing]. by rewrite Hs, Hm.
  - cbn [required_present forallb] in H1. apply andb_prop in H1 as [Hs1 Hl1].
    cbn [app upto_missing].
    assert (required s1 && missing e s1 = false) as ->
      by (destruct (required s1), (missing e s1); done).
    f_equal. by apply IH.
Qed.

Lemma upto_missing_prefix e l : upto_missing e l `prefix_of` l.
Proof.
  induction l as [|s l IH]; first done.
  cbn [upto_missing]. destruct (required s && missing e s).
  - by exists l.
  - by apply prefix_cons.
Qed.

Lemma construct_symbols_reached e b this :
  symbols_requested (evs (construct e b this)) = lookup_name <$> reached e b.
Proof.
  rewrite construct_symbols. unfold reached.
  destruct (ctor_cases e b this)
    as [(w & Hopen & Hrun)
       | [(Hopen & l1 & s & l2 & tr & Hsplit & H1 & Hs & Hm & Hrun & Hsym & _)
         | (Hopen & Hpresent & Hrun)]]; rewrite Hrun, Hopen; cbn [evs].
  - unfold init_log. by rewrite symbols_requested_D_LOG.
  - by rewrite Hsym, Hsplit, upto_missing_split.
  - by rewrite ctor_events_symbols, upto_missing_all.
Qed.

Lemma block_events_app e b l1 l2 :
  block_events e b (l1 ++ l2) = block_events e b l1 ++ block_events e b l2.
Proof. unfold block_events. by rewrite map_app, concat_app. Qed.

Lemma block_events_stop e b l1 s :
  required s = true →
  block_events e b (l1 ++ [s]) = block_events e b l1 ++ [EvLoadSymbol (lookup_name s)].
Proof.
  intros Hs. rewrite block_events_app. f_equal.
  unfold block_events, stmt_events. cbn [map concat].
  by rewrite Hs, andb_false_r.
Qed.

Lemma required_present_stop e l1 s l2 :
  required s = true → missing e s = true →
  required_present e (l1 ++ s :: l2) = false.
Proof.
  intros Hs Hm. rewrite required_present_app.
  cbn [required_present forallb]. rewrite Hs, Hm. cbn. apply andb_false_r.
Qed.

Lemma block_split_cases e l :
  (required_present e l = true ∧ upto_missing e l = l) ∨
  ∃ l1 s l2, l = l1 ++ s :: l2 ∧ required_present e l1 = true ∧
             required s = true ∧ missing e s = true ∧
             required_present e l = false ∧ upto_missing e l = l1 ++ [s].
Proof.
  destruct (required_present_split e l)
    as [Hp | (l1 & s & l2 & -> & H1 & Hs & Hm)].
  - left. split; [done | by apply upto_missing_all].
  - right. exists l1, s, l2.
    repeat split; try done;
      [by apply required_present_stop | by apply upto_missing_split].
Qed.

(** The trace of every run of the constructor, in closed form. *)
Lemma cuda_ctor_trace e b this :
  evs (cuda_ctor e b this cuda_fresh) = ctor_trace e b this.
Proof.
  unfold ctor_trace, block_trace.
  destruct (library_load e (ST_CUDA_NAME b)) as [|w] eqn:Hopen.
  2: { by rewrite (ctor_load_fails e b this w). }
  destruct (block_split_cases e block1)
    as [[Hb1 Hu1] | (l1 & s & l2 & Hsplit & H1 & Hs & Hm & Hb1 & Hu1)];
    rewrite Hb1, Hu1.
  - destruct (block_split_cases e (block3 b))
      as [[Hb3 Hu3] | (k1 & s & k2 & Hsplit & H1 & Hs & Hm & Hb3 & Hu3)];
      rewrite Hb3, Hu3.
    + rewrite ctor_ok; first done; first done.
      unfold table. by rewrite required_present_app, Hb1, Hb3.
    + rewrite (ctor_fail_block3 e b this k1 s k2) by done. cbn [evs].
      rewrite block_events_stop by done. by rewrite app_nil_r.
  - rewrite (ctor_fail_block1 e b this l1 s l2) by done. cbn [evs].
    rewrite block_events_stop by done. by rewrite app_nil_r.
Qed.

(** The object every run of the constructor leaves, in closed form. *)
Lemma cuda_ctor_obj e b this :
  obj (cuda_ctor e b this cuda_fresh)
  = {| _library := match library_load e (ST_CUDA_NAME b) with
                   | Opened => Some (ST_CUDA_NAME b)
                   | LoadFails _ => None
                   end;
       fn := foldl (bind_stmt e) ∅ (reached e b) |}.
Proof.
  unfold reached.
  destruct (ctor_cases e b this)
    as [(w & Hopen & Hrun)
       | [(Hopen & l1 & s & l2 & tr & Hsplit & H1 & Hs & Hm & Hrun & _)
         | (Hopen & Hpresent & Hrun)]]; rewrite Hrun, Hopen; cbn [obj].
  - done.
  - by rewrite Hsplit, upto_missing_split.
  - by rewrite upto_missing_all.
Qed.

Lemma construct_obj e b this :
  obj (construct e b this) = obj (cuda_ctor e b this cuda_fresh).
Proof.
  unfold construct. cbv zeta.
  by destruct (res (cuda_ctor e b this cuda_fresh)).
Qed.

Lemma construct_trace_ret e b this :
  res (construct e b this) = Ret tt →
  evs (construct e b this) = ctor_trace e b this.
Proof.
  intros Hret. rewrite <- cuda_ctor_trace.
  rewrite construct_res, <- (ctor_res_spec e b this) in Hret.
  unfold construct. cbv zeta. by rewrite Hret.
Qed.

Lemma construct_trace e b this :
  ∃ tail, evs (construct e b this) = ctor_trace e b this ++ tail ∧
          (tail = [] ∨ tail = [EvLibraryRelease (ST_CUDA_NAME b)]).
Proof.
  rewrite <- cuda_ctor_trace. unfold construct. cbv zeta.
  pose proof (cuda_ctor_obj e b this) as Hobj.
  destruct (res (cuda_ctor e b this cuda_fresh)); cbn [evs].
  - exists []. split; [by rewrite app_nil_r | by left].
  - rewrite Hobj. cbn [_library]. eexists. split; first done.
    destruct (library_load e (ST_CUDA_NAME b)); auto.
  - rewrite Hobj. cbn [_library]. eexists. split; first done.
    destruct (library_load e (ST_CUDA_NAME b)); auto.
Qed.

(** ** Projections of the constructor's trace *)

Lemma omap_block_events {A} (sel : event → option A) e b l :
  (∀ sym, sel (EvLoadSymbol sym) = None) →
  (∀ s, sel (opt_warning b s) = None) →
  omap sel (block_events e b l) = [].
Proof.
  intros Hsym Hwarn. induction l as [|s l IH]; first done.
  unfold block_events in *. cbn [map concat]. rewrite omap_app, IH, app_nil_r.
  unfold stmt_events. cbn [omap list_omap]. rewrite Hsym.
  destruct (missing e s && negb (required s)); last done.
  cbn [omap list_omap]. fold (opt_warning b s). by rewrite Hwarn.
Qed.

Lemma call_of_D_LOG b f lvl x args : call_of (D_LOG b f lvl x args) = None.
Proof. unfold D_LOG. by destruct (def_DEBUG b). Qed.

Lemma library_of_D_LOG b f lvl x args : library_of (D_LOG b f lvl x args) = None.
Proof. unfold D_LOG. by destruct (def_DEBUG b). Qed.

Lemma call_of_version_log e b : call_of (version_log e b) = None.
Proof. by destruct (version_log_is_log e b) as (lvl & fmt & args & ->). Qed.

Lemma library_of_version_log e b : library_of (version_log e b) = None.
Proof. by destruct (version_log_is_log e b) as (lvl & fmt & args & ->). Qed.

Lemma driver_calls_block e b l : driver_calls (block_events e b l) = [].
Proof.
  apply omap_block_events; first done.
  intros s. apply call_of_D_LOG.
Qed.

Lemma libraries_opened_block e b l : libraries_opened (block_events e b l) = [].
Proof.
  apply omap_block_events; first done.
  intros s. apply library_of_D_LOG.
Qed.

Lemma omap_cons_None {A} (sel : event → option A) ev tr :
  sel ev = None → omap sel (ev :: tr) = omap sel tr.
Proof. intros H. cbn. by rewrite H. Qed.

Lemma omap_cons_Some {A} (sel : event → option A) ev x tr :
  sel ev = Some x → omap sel (ev :: tr) = x :: omap sel tr.
Proof. intros H. cbn. by rewrite H. Qed.

Lemma driver_calls_ctor_trace e b this :
  driver_calls (ctor_trace e b this)
  = match library_load e (ST_CUDA_NAME b) with
    | LoadFails _ => []
    | Opened =>
        if required_present e block1 then
          ("cuDriverGetVersion", 0)
          :: (if required_present e (block3 b) then [("cuInit", 0)] else [])
        else []
    end.
Proof.
  unfold driver_calls, ctor_trace, block_trace, init_log. cbn [app].
  rewrite omap_cons_None by apply call_of_D_LOG.
  rewrite omap_cons_None by done.
  destruct (library_load e (ST_CUDA_NAME b)); last done.
  rewrite omap_app, (omap_block_events call_of);
    [| done | intros; apply call_of_D_LOG].
  destruct (required_present e block1); last done. cbn [app].
  rewrite (omap_cons_Some _ _ ("cuDriverGetVersion", 0)) by done.
  rewrite omap_cons_None by apply call_of_version_log.
  rewrite omap_app, (omap_block_events call_of);
    [| done | intros; apply call_of_D_LOG].
  by destruct (required_present e (block3 b)).
Qed.

Lemma libraries_opened_ctor_trace e b this :
  libraries_opened (ctor_trace e b this) = [ST_CUDA_NAME b].
Proof.
  unfold libraries_opened, ctor_trace, block_trace, init_log. cbn [app].
  rewrite omap_cons_None by apply library_of_D_LOG.
  rewrite (omap_cons_Some _ _ (ST_CUDA_NAME b)) by done. f_equal.
  destruct (library_load e (ST_CUDA_NAME b)); last done.
  rewrite omap_app, (omap_block_events library_of);
    [| done | intros; apply library_of_D_LOG].
  destruct (required_present e block1); last done. cbn [app].
  rewrite omap_cons_None by done.
  rewrite omap_cons_None by apply library_of_version_log.
  rewrite omap_app, (omap_block_events library_of);
    [| done | intros; apply library_of_D_LOG].
  by destruct (required_present e (block3 b)).
Qed.

Lemma construct_projection {A} (sel : event → option A) e b this :
  (∀ f, sel (EvLibraryRelease f) = None) →
  omap sel (evs (construct e b this)) = omap sel (ctor_trace e b this).
Proof.
  intros Hrel. destruct (construct_trace e b this) as (tail & -> & [-> | ->]).
  - by rewrite app_nil_r.
  - rewrite omap_app. cbn [omap list_omap]. rewrite Hrel. apply app_nil_r.
Qed.

(** X1. Whatever the environment, the constructor opens exactly one library,
    the platform's driver library, and the symbols it asks the loader for
    are an initial segment of the table in table order: no symbol outside
    the table, none twice; the whole table when construction completes. *)
Theorem requests_follow_table e b this :
  libraries_opened (evs (construct e b this)) = [ST_CUDA_NAME b] ∧
  symbols_requested (evs (construct e b this)) `prefix_of` (lookup_name <$> table b) ∧
  NoDup (symbols_requested (evs (construct e b this))) ∧
  (res (construct e b this) = Ret tt →
   symbols_requested (evs (construct e b this)) = lookup_name <$> table b).
Proof.
  assert (symbols_requested (evs (construct e b this))
            `prefix_of` (lookup_name <$> table b)) as Hpre.
  { rewrite construct_symbols_reached. unfold reached.
    destruct (library_load e (ST_CUDA_NAME b)).
    - destruct (upto_missing_prefix e (table b)) as [k Hk].
      exists (lookup_name <$> k). by rewrite <- fmap_app, <- Hk.
    - apply prefix_nil. }
  split; [|split; [|split]].
  - unfold libraries_opened. rewrite construct_projection by (intros; exact eq_refl).
    apply libraries_opened_ctor_trace.
  - done.
  - destruct Hpre as [k Hk]. pose proof (table_lookup_NoDup b) as Hnd.
    rewrite Hk in Hnd. by apply NoDup_app in Hnd as [? _].
  - intros [Hopen Hpresent]%construct_ret_inv.
    rewrite construct_ok by done. apply ctor_events_symbols.
Qed.

Lemma requests_follow_table_witness :
  symbols_requested (evs (construct full_driver windows_build 0))
  = lookup_name <$> table windows_build.
Proof.
  refine (proj2 (proj2 (proj2
            (requests_follow_table full_driver windows_build 0))) _).
  vm_compute; reflexivity.
Defined.

(** X2. The constructor calls the driver in a fixed protocol: nothing at all
    unless the library opened and both critical symbols resolved; then one
    version query [cuDriverGetVersion(&v)] with [v = 0]; and [cuInit(0)],
    once and last, exactly when construction completes. A failing
    construction never calls [cuInit]. *)
Theorem driver_call_protocol e b this :
  (res (construct e b this) = Ret tt →
   driver_calls (evs (construct e b this))
   = [("cuDriverGetVersion", 0); ("cuInit", 0)]) ∧
  (res (construct e b this) ≠ Ret tt →
   driver_calls (evs (construct e b this)) = [] ∨
   driver_calls (evs (construct e b this)) = [("cuDriverGetVersion", 0)]) ∧
  (driver_calls (evs (construct e b this)) ≠ [] →
   library_load e (ST_CUDA_NAME b) = Opened ∧
   load_symbol e "cuInit" ≠ 0 ∧ load_symbol e "cuDriverGetVersion" ≠ 0).
Proof.
  assert (driver_calls (evs (construct e b this))
          = driver_calls (ctor_trace e b this)) as ->
    by by apply construct_projection.
  rewrite driver_calls_ctor_trace, construct_res. unfold ctor_res, table.
  destruct (library_load e (ST_CUDA_NAME b)) as [|w].
  2: { split; [done | split; [auto | done]]. }
  destruct (required_present e block1) eqn:Hb1.
  - assert (load_symbol e "cuInit" ≠ 0 ∧ load_symbol e "cuDriverGetVersion" ≠ 0)
      as Hcrit.
    { split.
      - apply (required_present_elem e block1 (LOAD "cuInit") Hb1);
          [by_computation | done].
      - apply (required_present_elem e block1 (LOAD "cuDriverGetVersion") Hb1);
          [by_computation | done]. }
    destruct (required_present e (block3 b)) eqn:Hb3.
    + rewrite first_missing_none
        by by rewrite required_present_app, Hb1, Hb3.
      split; [done | split; [done | done]].
    + split; [|split; [auto | done]].
      destruct (required_present_split e (block1 ++ block3 b))
        as [Hp | (l1 & s & l2 & Hsplit & H1 & Hs & Hm)].
      * rewrite required_present_app, Hb1, Hb3 in Hp. done.
      * by rewrite Hsplit, first_missing_split.
  - split; [|split; [auto | done]].
    destruct (required_present_split e (block1 ++ block3 b))
      as [Hp | (l1 & s & l2 & Hsplit & H1 & Hs & Hm)].
    * rewrite required_present_app, Hb1 in Hp. done.
    * by rewrite Hsplit, first_missing_split.
Qed.

Lemma driver_call_protocol_witness :
  driver_calls (evs (construct full_driver linux_build 0))
    = [("cuDriverGetVersion", 0); ("cuInit", 0)]
  ∧ (driver_calls (evs (construct driver_without_cuMemFree linux_build 0)) = [] ∨
     driver_calls (evs (construct driver_without_cuMemFree linux_build 0))
       = [("cuDriverGetVersion", 0)]).
Proof.
  split.
  - refine (proj1 (driver_call_protocol full_driver linux_build 0) _).
    vm_compute; reflexivity.
  - refine (proj1 (proj2 (driver_call_protocol driver_without_cuMemFree
                            linux_build 0)) _).
    vm_compute. discriminate.
Defined.

(** ** Environments with the same loader *)

Lemma missing_ext e e' s :
  (∀ n, load_symbol e' n = load_symbol e n) → missing e' s = missing e s.
Proof. intros H. unfold missing. by rewrite H. Qed.

Lemma required_present_ext e e' l :
  (∀ n, load_symbol e' n = load_symbol e n) →
  required_present e' l = required_present e l.
Proof.
  intros H. induction l as [|s l IH]; first done.
  cbn [required_present forallb]. fold (required_present e' l).
  fold (required_present e l). by rewrite IH, (missing_ext e e').
Qed.

Lemma upto_missing_ext e e' l :
  (∀ n, load_symbol e' n = load_symbol e n) →
  upto_missing e' l = upto_missing e l.
Proof.
  intros H. induction l as [|s l IH]; first done.
  cbn [upto_missing]. by rewrite IH, (missing_ext e e').
Qed.

Lemma reached_ext e e' b :
  library_load e' (ST_CUDA_NAME b) = library_load e (ST_CUDA_NAME b) →
  (∀ n, load_symbol e' n = load_symbol e n) →
  reached e' b = reached e b.
Proof. intros Hlib H. unfold reached. by rewrite Hlib, (upto_missing_ext e e'). Qed.

Lemma foldl_bind_ext e e' l : ∀ m,
  (∀ n, load_symbol e' n = load_symbol e n) →
  foldl (bind_stmt e') m l = foldl (bind_stmt e) m l.
Proof.
  induction l as [|s l IH]; intros m H; first done.
  cbn [foldl]. rewrite IH by done. unfold bind_stmt. by rewrite H.
Qed.

Lemma ctor_res_ext e e' b :
  library_load e' (ST_CUDA_NAME b) = library_load e (ST_CUDA_NAME b) →
  (∀ n, load_symbol e' n = load_symbol e n) →
  ctor_res e' b = ctor_res e b.
Proof.
  intros Hlib H. unfold ctor_res. rewrite Hlib.
  rewrite (first_missing_ext e e'); first done.
  intros s _ _. by apply missing_ext.
Qed.

Lemma construct_same_loader e e' b this :
  library_load e' (ST_CUDA_NAME b) = library_load e (ST_CUDA_NAME b) →
  (∀ n, load_symbol e' n = load_symbol e n) →
  res (construct e' b this) = res (construct e b this) ∧
  obj (construct e' b this) = obj (construct e b this) ∧
  symbols_requested (evs (construct e' b this))
    = symbols_requested (evs (construct e b this)) ∧
  driver_calls (evs (construct e' b this))
    = driver_calls (evs (construct e b this)).
Proof.
  intros Hlib H. split; [|split; [|split]].
  - rewrite !construct_res. by apply ctor_res_ext.
  - rewrite !construct_obj, !cuda_ctor_obj.
    rewrite Hlib, (reached_ext e e') by done.
    by rewrite (foldl_bind_ext e e').
  - rewrite !construct_symbols_reached. by rewrite (reached_ext e e').
  - unfold driver_calls. rewrite !construct_projection by (intros; exact eq_refl).
    fold (driver_calls (ctor_trace e' b this)).
    fold (driver_calls (ctor_trace e b this)).
    rewrite !driver_calls_ctor_trace, Hlib.
    by rewrite !(required_present_ext e e').
Qed.

Lemma log_of_D_LOG_other lvl b f lvl' x args :
  lvl' ≠ lvl → log_of lvl (D_LOG b f lvl' x args) = None.
Proof.
  intros Hne. unfold D_LOG, log_of.
  destruct (def_DEBUG b); by rewrite bool_decide_eq_false_2.
Qed.

Lemma log_of_D_LOG_same lvl b f x args :
  ∃ fmt args', D_LOG b f lvl x args = EvLog lvl fmt args' ∧
               log_of lvl (D_LOG b f lvl x args) = Some (fmt, args').
Proof.
  unfold D_LOG, log_of.
  destruct (def_DEBUG b); eexists _, _; by rewrite bool_decide_eq_true_2.
Qed.

Lemma logs_at_ctor_events lvl e b this :
  lvl ≠ LOG_DEBUG → lvl ≠ LOG_WARNING →
  logs_at lvl (ctor_events e b this)
  = match log_of lvl (version_log e b) with Some line => [line] | None => [] end.
Proof.
  intros Hd Hw. unfold logs_at, ctor_events, init_log. cbn [app].
  rewrite omap_cons_None by by apply log_of_D_LOG_other.
  rewrite omap_cons_None by done.
  rewrite omap_app, (omap_block_events (log_of lvl));
    [| done | intros; by apply log_of_D_LOG_other].
  cbn [app]. rewrite omap_cons_None by done.
  assert (omap (log_of lvl) (block_events e b (block3 b) ++ [EvCall "cuInit" 0]) = [])
    as Hrest.
  { rewrite omap_app, (omap_block_events (log_of lvl));
      [done | done | intros; by apply log_of_D_LOG_other]. }
  destruct (log_of lvl (version_log e b)) as [line|] eqn:Hlog.
  - rewrite (omap_cons_Some _ _ line) by done. by rewrite Hrest.
  - rewrite omap_cons_None by done. by rewrite Hrest.
Qed.

(** X3. A failing version query is not fatal, and the version the driver
    reports decides nothing: the outcome of construction, the object built,
    the symbols requested and the driver calls made are the same for every
    behaviour of [cuDriverGetVersion]. In a completed construction a failing
    query logs the warning and no information line, and a successful one logs
    exactly one information line. *)
Theorem version_query_nonfatal e b this f :
  res (construct (with_cuDriverGetVersion f e) b this) = res (construct e b this) ∧
  obj (construct (with_cuDriverGetVersion f e) b this) = obj (construct e b this) ∧
  symbols_requested (evs (construct (with_cuDriverGetVersion f e) b this))
    = symbols_requested (evs (construct e b this)) ∧
  driver_calls (evs (construct (with_cuDriverGetVersion f e) b this))
    = driver_calls (evs (construct e b this)) ∧
  (res (construct e b this) = Ret tt → (f 0).1 ≠ SUCCESS →
   logs_at LOG_INFO (evs (construct (with_cuDriverGetVersion f e) b this)) = [] ∧
   D_LOG b FnCtor LOG_WARNING "Failed to query NVIDIA CUDA Driver for version."
     [AInt 0] ∈ evs (construct (with_cuDriverGetVersion f e) b this)) ∧
  (res (construct e b this) = Ret tt → (f 0).1 = SUCCESS →
   ∃ fmt args,
     logs_at LOG_INFO (evs (construct (with_cuDriverGetVersion f e) b this))
     = [(fmt, args)]).
Proof.
  set (e' := with_cuDriverGetVersion f e).
  destruct (construct_same_loader e e' b this) as (Hres & Hobj & Hsym & Hcalls);
    [exact eq_refl | intros n; exact eq_refl |].
  do 4 (split; first assumption).
  assert (res (construct e b this) = Ret tt →
          evs (construct e' b this) = ctor_events e' b this) as Hevs.
  { intros Hret. rewrite <- Hres in Hret.
    apply construct_ret_inv in Hret as [Hopen Hpresent].
    by rewrite construct_ok. }
  split.
  - intros Hret Hfail. rewrite (Hevs Hret).
    assert (version_log e' b
            = D_LOG b FnCtor LOG_WARNING
                "Failed to query NVIDIA CUDA Driver for version." [AInt 0]) as Hlog.
    { unfold version_log, e'. cbn [drv_cuDriverGetVersion with_cuDriverGetVersion].
      destruct (f 0) as [r v]. by rewrite decide_False. }
    split.
    + rewrite logs_at_ctor_events by done. rewrite Hlog.
      by rewrite log_of_D_LOG_other.
    + rewrite <- Hlog. apply version_log_in_ctor_events.
  - intros Hret Hok. rewrite (Hevs Hret).
    rewrite logs_at_ctor_events by done.
    unfold version_log, e'. cbn [drv_cuDriverGetVersion with_cuDriverGetVersion].
    destruct (f 0) as [r v]. cbn [fst] in Hok. rewrite decide_True by done.
    destruct (log_of_D_LOG_same LOG_INFO b FnCtor (version_fmt b)
                [AInt (version_major v); AInt (version_minor v);
                 AInt (version_patch v)]) as (fmt & args & _ & ->).
    eauto.
Qed.

Lemma version_query_nonfatal_witness :
  res (construct failing_query_driver linux_build 0) = Ret tt
  ∧ logs_at LOG_INFO (evs (construct failing_query_driver linux_build 0)) = []
  ∧ EvLog LOG_WARNING
      "<nvidia::cuda::cuda> Failed to query NVIDIA CUDA Driver for version."
      [AInt 0] ∈ evs (construct failing_query_driver linux_build 0).
Proof.
  destruct (version_query_nonfatal full_driver linux_build 0 (λ v, (999, v)))
    as (Hres & _ & _ & _ & Hfail & _).
  destruct Hfail as [Hinfo Hwarn];
    [vm_compute; reflexivity | vm_compute; discriminate |].
  split; [|split].
  - etransitivity; first exact Hres. vm_compute; reflexivity.
  - exact Hinfo.
  - exact Hwarn.
Defined.

(** * Further properties of the macros *)

Lemma exec_no_library e b s c :
  _library c = None → exec e b s c = Run Undefined c [].
Proof.
  intros Hlib.
  destruct s; cbn [exec];
    unfold P_CUDA_LOAD_SYMBOL, P_CUDA_LOAD_SYMBOL_OPT, P_CUDA_LOAD_SYMBOL_EX,
      P_CUDA_LOAD_SYMBOL_OPT_EX, P_CUDA_LOAD_SYMBOL_V2, P_CUDA_LOAD_SYMBOL_OPT_V2;
    unfold_M; cbv zeta; by rewrite Hlib.
Qed.

(** X4. The contract shared by the six loading macros, the two [_EX] ones
    included. Without a library the statement dereferences a null pointer
    before touching the loader or the object. With a library it performs
    exactly one lookup, of the override or suffixed name, calls nothing, and
    always assigns the looked-up address to the member of the logical name,
    leaving every other member alone - also when the address is null and the
    statement throws. A found symbol is silent; a missing required one throws
    the message naming the logical name; a missing optional one only warns. *)
Theorem macro_contract e b s c :
  (_library c = None → exec e b s c = Run Undefined c []) ∧
  (∀ f, _library c = Some f →
     symbols_requested (evs (exec e b s c)) = [lookup_name s] ∧
     driver_calls (evs (exec e b s c)) = [] ∧
     _library (obj (exec e b s c)) = Some f ∧
     fn (obj (exec e b s c)) !! logical s = Some (load_symbol e (lookup_name s)) ∧
     (∀ n, n ≠ logical s → fn (obj (exec e b s c)) !! n = fn c !! n) ∧
     (load_symbol e (lookup_name s) ≠ 0 →
        res (exec e b s c) = Ret tt ∧
        evs (exec e b s c) = [EvLoadSymbol (lookup_name s)]) ∧
     (load_symbol e (lookup_name s) = 0 → required s = true →
        res (exec e b s c) = Throw (fail_msg b (logical s)) ∧
        evs (exec e b s c) = [EvLoadSymbol (lookup_name s)]) ∧
     (load_symbol e (lookup_name s) = 0 → required s = false →
        res (exec e b s c) = Ret tt ∧
        evs (exec e b s c) = [EvLoadSymbol (lookup_name s); opt_warning b s])).
Proof.
  split; first apply exec_no_library.
  intros f Hlib. rewrite (exec_spec e b s c f Hlib). cbn [res obj evs fn _library].
  split; first apply stmt_events_symbols.
  split. { pose proof (driver_calls_block e b [s]) as H.
           unfold block_events in H. cbn [map concat] in H.
           by rewrite app_nil_r in H. }
  split; first done.
  split. { unfold bind_stmt. by rewrite lookup_insert_eq. }
  split. { intros n Hn. unfold bind_stmt. by rewrite lookup_insert_ne. }
  unfold stmt_events, missing, opt_warning.
  split; [|split].
  - intros Hp. by rewrite bool_decide_eq_false_2.
  - intros Hp Hr. by rewrite bool_decide_eq_true_2, Hr.
  - intros Hp Hr. by rewrite bool_decide_eq_true_2, Hr.
Qed.

Lemma macro_contract_witness :
  res (exec driver_without_optionals linux_build
         (LOAD_EX "cuMemsetD16" "cuMemsetD16_v2")
         {| _library := Some "libcuda.so.1"; fn := {["cuInit" := 4096]} |})
    = Throw "Failed to load 'cuMemsetD16' from 'libcuda.so.1'."
  ∧ fn (obj (exec driver_without_optionals linux_build
               (LOAD_EX "cuMemsetD16" "cuMemsetD16_v2")
               {| _library := Some "libcuda.so.1"; fn := {["cuInit" := 4096]} |}))
      !! "cuInit" = Some 4096
  ∧ exec full_driver linux_build (LOAD_OPT_EX "cuMemsetD16" "cuMemsetD16_v2")
         cuda_fresh
    = Run Undefined cuda_fresh [].
Proof.
  destruct (macro_contract driver_without_optionals linux_build
              (LOAD_EX "cuMemsetD16" "cuMemsetD16_v2")
              {| _library := Some "libcuda.so.1"; fn := {["cuInit" := 4096]} |})
    as [_ Hopen].
  destruct (Hopen "libcuda.so.1" eq_refl)
    as (_ & _ & _ & _ & Hother & _ & Hthrow & _).
  split; [|split].
  - refine (proj1 (Hthrow _ eq_refl)). vm_compute; reflexivity.
  - etransitivity; first refine (Hother "cuInit" _).
    + vm_compute. discriminate.
    + vm_compute; reflexivity.
  - refine (proj1 (macro_contract full_driver linux_build
                     (LOAD_OPT_EX "cuMemsetD16" "cuMemsetD16_v2") cuda_fresh) eq_refl).
Defined.

(** * Further properties of the shared instance *)



Lemma steps_cons_run b o ops p :
  steps b (o :: ops) p
  = ((steps b ops (step b o p).1).1, (step b o p).2 ++ (steps b ops (step b o p).1).2).
Proof.
  cbn [steps]. destruct (step b o p) as [p1 t1]. cbn [fst snd].
  by destruct (steps b ops p1).
Qed.

Lemma step_get_live e b p i :
  wf p → strong_count p i ≠ 0%nat → step b (OpGet e) p = (acquire i p, []).
Proof. intros Hwf Hpos. cbn [step]. by rewrite (get_live e b p i). Qed.

Lemma strong_count_acquire p i :
  strong_count (acquire i p) i = S (strong_count p i).
Proof. unfold acquire. rewrite strong_count_insert. by rewrite decide_True. Qed.

(** Further calls of [get] while the object lives. *)
Lemma steps_gets_live b es : ∀ p i,
  wf p → strong_count p i ≠ 0%nat →
  (steps b (OpGet <$> es) p).2 = [] ∧
  returned b (OpGet <$> es) p = replicate (length es) i ∧
  strong_count (steps b (OpGet <$> es) p).1 i = (strong_count p i + length es)%nat ∧
  heap (steps b (OpGet <$> es) p).1 = heap p ∧
  instance (steps b (OpGet <$> es) p).1 = instance p.
Proof.
  induction es as [|e es IH]; intros p i Hwf Hpos.
  - cbn. repeat split; try done; lia.
  - rewrite fmap_cons, steps_cons_run. cbn [returned].
    rewrite (step_get_live e b p i) by done. rewrite (get_live e b p i) by done.
    cbn [fst snd app].
    destruct (IH (acquire i p) i) as (Htr & Hret & Hcnt & Hheap & Hinst).
    { by apply wf_acquire. }
    { by rewrite strong_count_acquire. }
    rewrite Htr, Hret, Hcnt, Hheap, Hinst, strong_count_acquire.
    cbn [length replicate]. repeat split; try done. lia.
Qed.

(** X6. Against a driver whose library opens and whose required symbols
    resolve, a first [get] followed by any number of further [get] calls -
    whatever the environment has become by then - runs the constructor once:
    the whole trace is that of one construction, [cuInit] is called once,
    every call returns the same handle, and the reference count is the number
    of calls. *)
Theorem shared_gets_initialise_once e b es :
  library_load e (ST_CUDA_NAME b) = Opened →
  required_present e (table b) = true →
  (steps b (OpGet e :: (OpGet <$> es)) process_start).2 = ctor_events e b 0 ∧
  calls_to "cuInit" (steps b (OpGet e :: (OpGet <$> es)) process_start).2 = [0] ∧
  returned b (OpGet e :: (OpGet <$> es)) process_start
    = replicate (S (length es)) 0%nat ∧
  strong_count (steps b (OpGet e :: (OpGet <$> es)) process_start).1 0
    = S (length es) ∧
  heap (steps b (OpGet e :: (OpGet <$> es)) process_start).1
    = {[0%nat := ctor_object e b]}.
Proof.
  intros Hopen Hpresent.
  assert (get e b process_start
          = (Ret (Some 0%nat),
             {| instance := Some 0%nat; use_count := {[0%nat := 1%nat]};
                heap := {[0%nat := ctor_object e b]}; next_this := 1 |},
             ctor_events e b 0)) as Hget.
  { rewrite get_expired by done. cbn [next_this process_start].
    rewrite construct_ok by done. cbn [res obj evs use_count heap process_start].
    by rewrite !insert_empty. }
  set (p1 := {| instance := Some 0%nat; use_count := {[0%nat := 1%nat]};
                heap := {[0%nat := ctor_object e b]}; next_this := 1 |}) in *.
  assert (wf p1) as Hwf1.
  { pose proof (wf_get e b process_start wf_start) as H. by rewrite Hget in H. }
  assert (strong_count p1 0 = 1%nat) as Hc1.
  { unfold strong_count, p1. cbn [use_count]. by rewrite lookup_singleton_eq. }
  destruct (steps_gets_live b es p1 0%nat Hwf1) as (Htr & Hret & Hcnt & Hheap & _).
  { by rewrite Hc1. }
  rewrite steps_cons_run. cbn [returned step]. rewrite Hget. cbn [fst snd].
  rewrite Htr, Hret, Hcnt, Hheap, Hc1, app_nil_r.
  split; first done.
  split.
  { pose proof (ctor_events_symbols e b 0) as _.
    unfold ctor_events, init_log.
    destruct (version_log_is_log e b) as (lvl & fmt & args & Hlog).
    rewrite !calls_to_app, !calls_to_block, calls_to_D_LOG, Hlog. done. }
  done.
Qed.

Lemma shared_gets_initialise_once_witness :
  calls_to "cuInit"
    (steps linux_build (OpGet full_driver :: (OpGet <$> [no_driver; full_driver]))
           process_start).2 = [0]
  ∧ returned linux_build (OpGet full_driver :: (OpGet <$> [no_driver; full_driver]))
      process_start = [0; 0; 0]%nat.
Proof.
  destruct (shared_gets_initialise_once full_driver linux_build
              [no_driver; full_driver])
    as (_ & Hinit & Hret & _); [vm_compute; reflexivity | vm_compute; reflexivity |].
  split; [exact Hinit | exact Hret].
Defined.

Lemma release_zero b i p : strong_count p i = 0%nat → release b i p = (p, []).
Proof. intros H. unfold release. by rewrite H. Qed.

Lemma release_last b i p :
  strong_count p i = 1%nat →
  release b i p
  = ({| instance := instance p; use_count := <[i := 0%nat]> (use_count p);
        heap := delete i (heap p); next_this := next_this p |},
     match heap p !! i with Some c => cuda_dtor b i c | None => [] end).
Proof. intros H. unfold release. by rewrite H. Qed.

Lemma release_more b i p n :
  strong_count p i = S (S n) →
  release b i p
  = ({| instance := instance p; use_count := <[i := S n]> (use_count p);
        heap := heap p; next_this := next_this p |}, []).
Proof. intros H. unfold release. by rewrite H. Qed.

Lemma heap_only_instance p i j :
  wf p → strong_count p i ≠ 0%nat → is_Some (heap p !! j) → j = i.
Proof.
  intros (Hinst & Hheap & _) Hi Hj%Hheap%Hinst. apply Hinst in Hi. congruence.
Qed.




Lemma process_eta p :
  {| instance := instance p; use_count := use_count p;
     heap := heap p; next_this := next_this p |} = p.
Proof. by destruct p. Qed.

Lemma use_count_lookup p i n :
  strong_count p i = S n → use_count p !! i = Some (S n).
Proof.
  unfold strong_count. destruct (use_count p !! i) as [k|]; cbn; congruence.
Qed.

(** X8. Taking a reference and giving it back is a round trip: in a
    reachable state with a live object, [get] followed by the release of the
    handle it returned restores the registry exactly and emits no event; so
    does a copy followed by a release. *)
Theorem get_release_roundtrip e b p i :
  wf p → live p i →
  (get e b p).1.1 = Ret (Some i) ∧
  (get e b p).2 = [] ∧
  release b i (get e b p).1.2 = (p, []) ∧
  release b i (copy i p) = (p, []).
Proof.
  intros Hwf Hlive.
  pose proof Hwf as (_ & Hheap & _).
  assert (strong_count p i ≠ 0%nat) as Hpos by by apply Hheap.
  destruct (strong_count p i) as [|n] eqn:Hc; first done.
  assert (release b i (acquire i p) = (p, [])) as Hback.
  { rewrite (release_more b i (acquire i p) n)
      by by rewrite strong_count_acquire, Hc.
    f_equal. unfold acquire. cbn [instance use_count heap next_this].
    rewrite insert_insert_eq.
    rewrite insert_id by by apply use_count_lookup.
    apply process_eta. }
  rewrite (get_live e b p i) by (done || by rewrite Hc). cbn [fst snd].
  split; [done | split; [done | split; [done |]]].
  unfold copy. rewrite bool_decide_eq_false_2 by by rewrite Hc. done.
Qed.

Lemma get_release_roundtrip_witness :
  release linux_build 0
    (get no_driver linux_build (get full_driver linux_build process_start).1.2).1.2
  = ((get full_driver linux_build process_start).1.2, []).
Proof.
  refine (proj1 (proj2 (proj2 (get_release_roundtrip no_driver linux_build
            (get full_driver linux_build process_start).1.2 0%nat _ _)))).
  - apply wf_get, wf_start.
  - vm_compute. eexists. reflexivity.
Defined.

(** X9. Once the last reference is dropped the registry is expired and holds
    no object, and the next [get] builds a new object from scratch: it runs
    the constructor against the environment of that call, and when it
    completes the handle returned is a new one, distinct from the destroyed
    object, and the heap holds exactly the newly built object - nothing of
    the destroyed one is reused. *)
Theorem teardown_then_reconstruct b p i :
  wf p → strong_count p i = 1%nat →
  expired (release b i p).1 = true ∧
  (∀ j, ¬ live (release b i p).1 j) ∧
  ∀ e,
    (get e b (release b i p).1).2 = evs (construct e b (next_this p)) ∧
    (res (construct e b (next_this p)) = Ret tt →
     (get e b (release b i p).1).1.1 = Ret (Some (next_this p)) ∧
     next_this p ≠ i ∧
     heap (get e b (release b i p).1).1.2
       = {[next_this p := obj (construct e b (next_this p))]}).
Proof.
  intros Hwf Hc.
  pose proof Hwf as (Hinst & Hheap & Hfresh).
  assert (strong_count p i ≠ 0%nat) as Hpos by by rewrite Hc.
  pose proof (Hinst i Hpos) as Hobs.
  rewrite release_last by done. cbn [fst].
  set (p' := {| instance := instance p; use_count := <[i := 0%nat]> (use_count p);
                heap := delete i (heap p); next_this := next_this p |}).
  assert (expired p' = true) as Hexp.
  { unfold expired, p'. cbn [instance]. rewrite Hobs.
    apply bool_decide_eq_true_2. rewrite strong_count_insert.
    by rewrite decide_True. }
  assert (heap p' = ∅) as Hempty.
  { unfold p'. cbn [heap]. apply map_eq. intros j. rewrite lookup_empty.
    destruct (decide (i = j)) as [<- | Hne]; first by rewrite lookup_delete_eq.
    rewrite lookup_delete_ne by done. apply eq_None_not_Some. intros Hj.
    by apply (heap_only_instance p i j Hwf Hpos) in Hj. }
  split; first done. split.
  { intros j. unfold live. rewrite Hempty, lookup_empty. by intros []. }
  intros e. rewrite get_expired by done.
  change (next_this p') with (next_this p). split.
  - by destruct (res (construct e b (next_this p))).
  - intros ->. cbn [fst snd heap]. split; first done. split.
    + apply strong_count_pos_is_Some, Hfresh in Hpos. lia.
    + by rewrite Hempty, insert_empty.
Qed.

Lemma teardown_then_reconstruct_witness :
  (get driver_without_optionals linux_build
     (release linux_build 0 (get full_driver linux_build process_start).1.2).1).1.1
  = Ret (Some 1%nat).
Proof.
  destruct (teardown_then_reconstruct linux_build
              (get full_driver linux_build process_start).1.2 0%nat) as (_ & _ & Hnext).
  - apply wf_get, wf_start.
  - vm_compute; reflexivity.
  - refine (proj1 (proj2 (Hnext driver_without_optionals) _)).
    vm_compute; reflexivity.
Defined.

Lemma consumer_step_instance b c p :
  instance (step b (consumer_step c) p).1 = instance p.
Proof.
  destruct c as [i | i]; cbn [consumer_step step fst].
  - unfold copy. by case_bool_decide.
  - unfold release. by destruct (strong_count p i) as [|[|n]].
Qed.

Lemma consumer_steps_instance b l : ∀ p,
  instance (steps b (consumer_step <$> l) p).1 = instance p.
Proof.
  induction l as [|c l IH]; intros p; first done.
  rewrite fmap_cons, steps_cons. by rewrite IH, consumer_step_instance.
Qed.

(** Consumers hold no reference while the registry is expired. *)
Lemma consumer_steps_idle b l p :
  (∀ i, strong_count p i = 0%nat) → steps b (consumer_step <$> l) p = (p, []).
Proof.
  intros Hzero. induction l as [|c l IH]; first done.
  rewrite fmap_cons. cbn [steps].
  assert (step b (consumer_step c) p = (p, [])) as ->.
  { destruct c as [i | i]; cbn [consumer_step step].
    - unfold copy. by rewrite bool_decide_eq_true_2.
    - by rewrite release_zero. }
  by rewrite IH.
Qed.

(** X5. What [get] returns when consumers act between its test of
    [instance.expired()] and the rest of its body. With nothing in between
    it is the sequential [get]. It never dereferences null, and it throws
    only out of a construction, which no consumer can disturb. When the
    registry was not expired at the test, [get] returns the live object the
    registry observes if a reference to it is still outstanding at
    [instance.lock()]; if the consumers dropped the last one in between, it
    returns an empty pointer, constructs nothing, and leaves the registry
    expired with no live object. *)
Theorem get_empty_only_by_race e b between p :
  wf p →
  get_among e b [] p = get e b p ∧
  (get_among e b between p).1.1 ≠ Undefined ∧
  (expired p = true → get_among e b between p = get e b p) ∧
  (∀ w, (get_among e b between p).1.1 = Throw w →
        expired p = true ∧ (get_among e b between p).1.2 = p) ∧
  (∀ i, expired p = false → instance p = Some i →
     (strong_count (steps b (consumer_step <$> between) p).1 i ≠ 0%nat →
        (get_among e b between p).1.1 = Ret (Some i) ∧
        live (get_among e b between p).1.2 i ∧
        ∀ j, live (get_among e b between p).1.2 j → j = i) ∧
     (strong_count (steps b (consumer_step <$> between) p).1 i = 0%nat →
        (get_among e b between p).1.1 = Ret None ∧
        (get_among e b between p).1.2 = (steps b (consumer_step <$> between) p).1 ∧
        (get_among e b between p).2 = (steps b (consumer_step <$> between) p).2 ∧
        expired (get_among e b between p).1.2 = true ∧
        ∀ j, ¬ live (get_among e b between p).1.2 j)).
Proof.
  intros Hwf.
  assert (get_among e b [] p = get e b p) as Hseq.
  { unfold get_among, get. cbn [fmap list_fmap steps].
    destruct (expired p); last done.
    by destruct (res (construct e b (next_this p))). }
  assert (expired p = true → get_among e b between p = get e b p) as Hexpired.
  { intros Hexp. rewrite <- Hseq. unfold get_among. rewrite Hexp.
    rewrite (consumer_steps_idle b between p)
      by by apply expired_no_strong.
    done. }
  pose proof (wf_steps b (consumer_step <$> between) p Hwf) as Hwf1.
  pose proof (consumer_steps_instance b between p) as Hinst1.
  assert (∀ i, expired p = false → instance p = Some i →
            get_among e b between p
            = (Ret (if bool_decide
                          (strong_count (steps b (consumer_step <$> between) p).1 i
                           = 0%nat)
                    then None else Some i),
               (if bool_decide
                     (strong_count (steps b (consumer_step <$> between) p).1 i
                      = 0%nat)
                then (steps b (consumer_step <$> between) p).1
                else acquire i (steps b (consumer_step <$> between) p).1),
               (steps b (consumer_step <$> between) p).2)) as Hlive.
  { intros i Hexp Hi. unfold get_among. rewrite Hexp.
    destruct (steps b (consumer_step <$> between) p) as [p1 t1] eqn:Hsteps.
    cbn [fst snd] in *. unfold lock. rewrite Hinst1, Hi.
    by case_bool_decide. }
  split; first done. split; [|split; [done | split]].
  - destruct (expired p) eqn:Hexp.
    + rewrite Hexpired by done. rewrite get_expired by done.
      destruct (res (construct e b (next_this p))) eqn:Hres; try done.
      by apply construct_never_undefined in Hres.
    + destruct (not_expired_instance p Hexp) as (i & Hi & _).
      by rewrite (Hlive i eq_refl Hi).
  - intros w Hw. destruct (expired p) eqn:Hexp.
    + split; first done. rewrite Hexpired in * by done.
      rewrite get_expired in * by done.
      by destruct (res (construct e b (next_this p))).
    + destruct (not_expired_instance p Hexp) as (i & Hi & _).
      by rewrite (Hlive i eq_refl Hi) in Hw.
  - intros i Hexp Hi. rewrite (Hlive i Hexp Hi). cbn [fst snd].
    destruct Hwf1 as (Hobs1 & Hheap1 & Hfresh1). split.
    + intros Hpos. rewrite bool_decide_eq_false_2 by done.
      split; first done.
      assert (wf (acquire i (steps b (consumer_step <$> between) p).1))
        as (Hobs2 & Hheap2 & _) by by apply wf_acquire.
      assert (strong_count (acquire i (steps b (consumer_step <$> between) p).1) i
              ≠ 0%nat) as Hpos2 by by rewrite strong_count_acquire.
      split; first by apply Hheap2.
      intros j Hj%Hheap2%Hobs2. apply Hobs2 in Hpos2. congruence.
    + intros Hzero. rewrite bool_decide_eq_true_2 by done.
      do 3 (split; first done). split.
      * unfold expired. rewrite Hinst1, Hi. by apply bool_decide_eq_true_2.
      * intros j Hj%Hheap1. apply Hobs1 in Hj as Hobs.
        rewrite Hinst1, Hi in Hobs. congruence.
Qed.

Lemma get_empty_only_by_race_witness :
  (get_among no_driver linux_build [ConsumerRelease 0]
     (get full_driver linux_build process_start).1.2).1.1 = Ret None
  ∧ (get_among no_driver linux_build [ConsumerCopy 0; ConsumerRelease 0]
       (get full_driver linux_build process_start).1.2).1.1 = Ret (Some 0%nat).
Proof.
  pose proof (wf_get full_driver linux_build process_start wf_start) as Hwf.
  split.
  - refine (proj1 (proj2 (proj2 (proj2 (proj2 (proj2
              (get_empty_only_by_race no_driver linux_build [ConsumerRelease 0]
                 (get full_driver linux_build process_start).1.2 Hwf))))
              0%nat _ _) _)); vm_compute; reflexivity.
  - refine (proj1 (proj1 (proj2 (proj2 (proj2 (proj2
              (get_empty_only_by_race no_driver linux_build
                 [ConsumerCopy 0; ConsumerRelease 0]
                 (get full_driver linux_build process_start).1.2 Hwf))))
              0%nat _ _) _)); [vm_compute; reflexivity | vm_compute; reflexivity |].
    vm_compute. discriminate.
Defined.

(** * Further properties of the version decoding *)

(** X10. The three components the constructor logs determine the raw version:
    [major*1000 + minor*10 + patch] is [v] again, for every [v], negative
    ones included. Minor stays within two digits and patch within one, with
    the sign of [v]; and for [v] in the [int32_t] range every intermediate
    value of the computation is in range, so the C++ arithmetic cannot
    overflow. *)
Theorem version_components v :
  version_major v * 1000 + version_minor v * 10 + version_patch v = v ∧
  (-99 ≤ version_minor v ≤ 99 ∧ -9 ≤ version_patch v ≤ 9) ∧
  (0 ≤ v → 0 ≤ version_major v ∧ 0 ≤ version_minor v ∧ 0 ≤ version_patch v) ∧
  (v ≤ 0 → version_major v ≤ 0 ∧ version_minor v ≤ 0 ∧ version_patch v ≤ 0) ∧
  (int32_range v →
   int32_range (version_major v) ∧ int32_range (Z.rem v 1000) ∧
   int32_range (version_minor v) ∧ int32_range (version_patch v)).
Proof.
  unfold version_major, version_minor, version_patch, int32_range.
  repeat split; intros; Z.to_euclidean_division_equations; lia.
Qed.

Lemma version_components_witness :
  (0 ≤ version_major 12040 ∧ 0 ≤ version_minor 12040 ∧ 0 ≤ version_patch 12040)
  ∧ int32_range (version_major (-2147483648)).
Proof.
  split.
  - refine (proj1 (proj2 (proj2 (version_components 12040))) _). lia.
  - refine (proj1 (proj2 (proj2 (proj2 (proj2 (version_components (-2147483648)))))
                    _)).
    unfold int32_range. lia.
Defined.

(** * Further properties of the build configuration *)

Lemma table_without_WIN32 b :
  def_WIN32 b = false → table b = block1 ++ block3_common.
Proof. intros H. unfold table, block3. by rewrite H, app_nil_r. Qed.

Lemma table_with_WIN32 b :
  def_WIN32 b = true → table b = (block1 ++ block3_common) ++ block3_win32.
Proof. intros H. unfold table, block3. by rewrite H, app_assoc. Qed.

Lemma common_lookups_not_d3d :
  Forall (λ s, lookup_name s ∉ lookup_name <$> block3_win32)
         (block1 ++ block3_common).
Proof. by_computation. Qed.

(** X11. The Direct3D entry points belong to the table only under [WIN32].
    Without it the constructor never asks the loader for any of them and its
    outcome is the same whether the driver exports them or not. With it a
    completed construction has resolved them last, and both
    [cuD3D10GetDevice] and [cuD3D11GetDevice] were found. *)
Theorem direct3d_only_under_WIN32 e b this :
  (def_WIN32 b = false →
   (∀ s, s ∈ block3_win32 →
         lookup_name s ∉ symbols_requested (evs (construct e b this))) ∧
   (∀ absent, absent ⊆ lookup_name <$> block3_win32 →
      res (construct (without absent e) b this) = res (construct e b this))) ∧
  (def_WIN32 b = true → res (construct e b this) = Ret tt →
   load_symbol e "cuD3D10GetDevice" ≠ 0 ∧ load_symbol e "cuD3D11GetDevice" ≠ 0 ∧
   symbols_requested (evs (construct e b this))
     = (lookup_name <$> block1 ++ block3_common) ++ (lookup_name <$> block3_win32)).
Proof.
  pose proof common_lookups_not_d3d as Hcommon. rewrite Forall_forall in Hcommon.
  split.
  - intros Hwin. pose proof (table_without_WIN32 b Hwin) as Htable. split.
    + intros s Hs Hasked.
      rewrite construct_symbols_reached in Hasked. unfold reached in Hasked.
      destruct (library_load e (ST_CUDA_NAME b));
        last by apply elem_of_nil in Hasked.
      apply list_elem_of_fmap in Hasked as (s' & Heq & Hs').
      destruct (upto_missing_prefix e (table b)) as [k Hk].
      assert (s' ∈ block1 ++ block3_common) as Hin.
      { rewrite <- Htable, Hk. apply elem_of_app. by left. }
      apply (Hcommon s' Hin). rewrite <- Heq. by apply list_elem_of_fmap_2.
    + intros absent Habsent. rewrite !construct_res. unfold ctor_res.
      change (library_load (without absent e)) with (library_load e).
      rewrite (first_missing_ext e (without absent e)); first done.
      intros s Hs _. unfold missing, without. cbn [load_symbol].
      rewrite (bool_decide_eq_false_2 (lookup_name s ∈ absent)); first done.
      intros Hmem%Habsent. rewrite Htable in Hs. by apply (Hcommon s Hs).
  - intros Hwin [Hopen Hpresent]%construct_ret_inv.
    pose proof (table_with_WIN32 b Hwin) as Htable.
    assert (∀ s, s ∈ block3_win32 → required s = true →
                 load_symbol e (lookup_name s) ≠ 0) as Hd3d.
    { intros s Hs Hr. apply (required_present_elem e (table b) s Hpresent); last done.
      rewrite Htable. apply elem_of_app. by right. }
    split; [|split].
    + apply (Hd3d (LOAD "cuD3D10GetDevice")); [by_computation | done].
    + apply (Hd3d (LOAD "cuD3D11GetDevice")); [by_computation | done].
    + rewrite construct_ok by done. cbn [evs].
      by rewrite ctor_events_symbols, Htable, fmap_app.
Qed.

Lemma direct3d_only_under_WIN32_witness :
  res (construct driver_without_d3d win64_only_build 0)
    = res (construct full_driver win64_only_build 0)
  ∧ load_symbol full_driver "cuD3D10GetDevice" ≠ 0.
Proof.
  split.
  - refine (proj2 (proj1 (direct3d_only_under_WIN32 full_driver win64_only_build 0)
                     eq_refl) _ _).
    assert (Forall (λ n, n ∈ lookup_name <$> block3_win32)
              ["cuD3D10GetDevice"; "cuGraphicsD3D10RegisterResource";
               "cuD3D11GetDevice"; "cuGraphicsD3D11RegisterResource"]) as Hall
      by by_computation.
    rewrite Forall_forall in Hall. intros n Hn. by apply Hall.
  - refine (proj1 (proj2 (direct3d_only_under_WIN32 full_driver windows_build 0)
                     eq_refl _)).
    vm_compute; reflexivity.
Defined.

Lemma ST_CUDA_NAME_same b b' :
  def_WIN32_or_WIN64 b = def_WIN32_or_WIN64 b' → ST_CUDA_NAME b = ST_CUDA_NAME b'.
Proof. intros H. unfold ST_CUDA_NAME. by rewrite H. Qed.

Lemma table_same b b' : def_WIN32 b = def_WIN32 b' → table b = table b'.
Proof. intros H. unfold table, block3. by rewrite H. Qed.

(** X12. The [_DEBUG] switch, and the format macros, change log lines only:
    two builds that agree on the platform symbols give the same outcome
    (with the same error message), the same bound members, the same symbol
    requests, the same driver calls and open the same library. *)
Theorem debug_flag_only_changes_logs e b b' this :
  def_WIN32_or_WIN64 b = def_WIN32_or_WIN64 b' →
  def_WIN32 b = def_WIN32 b' →
  res (construct e b this) = res (construct e b' this) ∧
  obj (construct e b this) = obj (construct e b' this) ∧
  symbols_requested (evs (construct e b this))
    = symbols_requested (evs (construct e b' this)) ∧
  driver_calls (evs (construct e b this))
    = driver_calls (evs (construct e b' this)) ∧
  libraries_opened (evs (construct e b this))
    = libraries_opened (evs (construct e b' this)).
Proof.
  intros Hname%ST_CUDA_NAME_same Htable%table_same.
  assert (reached e b = reached e b') as Hreached
    by (unfold reached; by rewrite Hname, Htable).
  assert (block3 b = block3 b') as Hblock3.
  { unfold table in Htable. by apply app_inv_head in Htable. }
  split; [|split; [|split; [|split]]].
  - rewrite !construct_res. unfold ctor_res, fail_msg.
    by rewrite Hname, Htable.
  - rewrite !construct_obj, !cuda_ctor_obj. by rewrite Hname, Hreached.
  - rewrite !construct_symbols_reached. by rewrite Hreached.
  - unfold driver_calls. rewrite !construct_projection by (intros; exact eq_refl).
    fold (driver_calls (ctor_trace e b this)).
    fold (driver_calls (ctor_trace e b' this)).
    rewrite !driver_calls_ctor_trace. by rewrite Hname, Hblock3.
  - unfold libraries_opened.
    rewrite !construct_projection by (intros; exact eq_refl).
    fold (libraries_opened (ctor_trace e b this)).
    fold (libraries_opened (ctor_trace e b' this)).
    rewrite !libraries_opened_ctor_trace. by rewrite Hname.
Qed.

Lemma debug_flag_only_changes_logs_witness :
  res (construct driver_without_cuMemFree linux_build 0)
  = res (construct driver_without_cuMemFree linux_debug_build 0).
Proof.
  refine (proj1 (debug_flag_only_changes_logs driver_without_cuMemFree
                   linux_build linux_debug_build 0 eq_refl eq_refl)).
Defined.
